(** * DAG viewer (components/PipelineGraph.tsx): graph model, layout, drag, zoom

    A shallow embedding of the [useEffect] body of the [PipelineGraph]
    component (the variant with saved positions, dragging and zooming) and of
    the data it reads from [types.ts]; of the variant of the component with a
    fixed height; and of the parts of [App.tsx] around the component: the
    store of saved layouts, the simulated run that sets the active step, the
    simulated progress and the name of the downloaded project.

    Conventions of the embedding.
    - A JavaScript string is a [string]; one [ascii] stands for one code unit
      below 256 (Basic Latin and Latin-1 Supplement), where [toLowerCase] is a
      unit-by-unit map.  Strings with other code units are not modelled.
    - A JavaScript number is a [num := option R]: [Some r] is the finite number
      [r] (rounding is not modelled), [None] is [undefined] or [NaN], which
      are both falsy and both give [NaN] in arithmetic.  Infinities are not
      modelled: every division of the program is by a number that is not
      zero (a division by zero gives [None]), and a snapshot is taken to hold
      no infinite coordinate.
    - A node object is identified by its index in the [nodes] array: buckets
      and links hold indices, so a mutation of a node is seen through every
      reference to it.
    - A [Record<string, {x, y}>] is a plain object ([JsObject.t]): its own
      properties, and its prototype, which is [Object.prototype] until an
      assignment to ["__proto__"] replaces it.  A read [o[key]] goes through
      the prototype chain.  No code adds properties to [Object.prototype],
      [Function.prototype] or [Number.prototype].
    - An exception (a method call on [undefined]) aborts the pass: the pass
      returns [None]. *)

From Stdlib Require Import Reals Lra Lia ZArith Ascii String.
From stdpp Require Import base option list strings gmap.

(** ** JavaScript strings *)
Module JsString.

(** Code units with a distinct lower-case form below 256:
    A-Z, and the Latin-1 capitals U+00C0-U+00DE except the sign U+00D7. *)
Definition hasLower (n : N) : bool :=
  ((65 <=? n) && (n <=? 90) || (192 <=? n) && (n <=? 214)
   || (216 <=? n) && (n <=? 222))%N.

Definition lowerCode (n : N) : N := if hasLower n then (n + 32)%N else n.

Definition lowerChar (c : ascii) : ascii :=
  ascii_of_N (lowerCode (N_of_ascii c)).

(** [String.prototype.toLowerCase] on code units below 256.  (Outside that
    range the lower-case form of a unit can be longer than the unit: such
    strings are not modelled, and nothing here relies on the length of the
    result.) *)
Fixpoint toLowerCase (s : string) : string :=
  match s with
  | EmptyString => EmptyString
  | String c s' => String (lowerChar c) (toLowerCase s')
  end.

(** [s.startsWith(p)]: the inner loop of a substring search. *)
Fixpoint startsWith (s p : string) : bool :=
  match p, s with
  | EmptyString, _ => true
  | String _ _, EmptyString => false
  | String a p', String b s' => Ascii.eqb a b && startsWith s' p'
  end.

(** [String.prototype.includes]. *)
Fixpoint includes (s sub : string) : bool :=
  startsWith s sub
  || match s with
     | EmptyString => false
     | String _ s' => includes s' sub
     end.

(** The other casing of a letter: used to write a name in another casing.
    Lower-case letters below 256 whose capital is below 256 too are a-z and
    U+00E0-U+00FE except the sign U+00F7. *)
Definition hasUpper (n : N) : bool :=
  ((97 <=? n) && (n <=? 122) || (224 <=? n) && (n <=? 246)
   || (248 <=? n) && (n <=? 254))%N.

Definition swapCode (n : N) : N :=
  if hasLower n then (n + 32)%N else if hasUpper n then (n - 32)%N else n.

Definition swapChar (c : ascii) : ascii :=
  ascii_of_N (swapCode (N_of_ascii c)).

(** [recase mask s] switches the case of the letters of [s] at the positions
    where [mask] is [true]: every casing variant of [s] is some [recase]. *)
Fixpoint recase (mask : list bool) (s : string) : string :=
  match s with
  | EmptyString => EmptyString
  | String c s' =>
      match mask with
      | [] => s
      | b :: mask' => String (if b then swapChar c else c) (recase mask' s')
      end
  end.

(** [sub] occurs in [s]. *)
Definition occursIn (sub s : string) : Prop :=
  exists pre post : string, s = (pre +:+ sub +:+ post)%string.

(** [s.substring(start, stop)] on natural arguments: the two are swapped when
    they are out of order, and both are cut at the length of [s]. *)
Definition substring (s : string) (start stop : nat) : string :=
  String.substring (Nat.min start stop)
                   (Nat.max start stop - Nat.min start stop) s.

(** [a || b] on strings: the empty string is falsy. *)
Definition orElse (a b : string) : string :=
  match a with
  | EmptyString => b
  | String _ _ => a
  end.

End JsString.

(** ** types.ts *)
Module Types.

Inductive StepStatus := pending | running | completed | error.
Inductive StepType := source | transform | sink | utility.

Record PipelineStep := {
  id : string;
  name : string;
  description : string;
  dependencies : list string;
  status : option StepStatus;
  type : option StepType
}.

End Types.

(** ** JavaScript numbers *)
Module JsNumber.

(** [Some r]: the finite number [r].  [None]: [undefined], [NaN], an
    infinity. *)
Definition num : Type := option R.

Definition lit (z : Z) : num := Some (IZR z).

Definition lift2 (f : R -> R -> R) (a b : num) : num :=
  match a, b with
  | Some u, Some v => Some (f u v)
  | _, _ => None
  end.

Definition add : num -> num -> num := lift2 Rplus.
Definition sub : num -> num -> num := lift2 Rminus.
Definition mul : num -> num -> num := lift2 Rmult.

(** [a / b]: no finite value when [b] is zero. *)
Definition div (a b : num) : num :=
  match a, b with
  | Some u, Some v => if Req_dec_T v 0 then None else Some (u / v)%R
  | _, _ => None
  end.

(** [Math.sqrt]: [NaN] below zero. *)
Definition sqrt (a : num) : num :=
  match a with
  | Some u => if Rlt_dec u 0 then None else Some (R_sqrt.sqrt u)
  | None => None
  end.

Definition finite (a : num) : Prop := is_Some a.

Declare Scope num_scope.
Delimit Scope num_scope with num.
Bind Scope num_scope with num.
Infix "+" := add : num_scope.
Infix "-" := sub : num_scope.
Infix "*" := mul : num_scope.
Infix "/" := div : num_scope.

End JsNumber.

(** ** The value type [{ x: number; y: number }] *)
Module Position.
Import JsNumber.

Record t := { x : num; y : num }.

End Position.

(** ** Plain objects used as [Record<string, { x, y }>] *)
Module JsObject.
Import JsNumber.

(** The property names of [Object.prototype]: its methods and the accessor
    [__proto__]. *)
Definition objectPrototypeKeys : list string :=
  ["constructor"; "__defineGetter__"; "__defineSetter__"; "hasOwnProperty";
   "__lookupGetter__"; "__lookupSetter__"; "isPrototypeOf";
   "propertyIsEnumerable"; "toString"; "valueOf"; "__proto__";
   "toLocaleString"]%string.

(** An object made by [{}] and changed by assignments [o[key] = { x, y }]:
    its own properties, and its prototype: [None] is [Object.prototype],
    [Some pos] is the position object [pos] that an assignment to
    ["__proto__"] has put in its place (the prototype of [pos] is
    [Object.prototype]). *)
Record t := { own : gmap string Position.t; proto : option Position.t }.

(** [{}] *)
Definition empty : t := {| own := ∅; proto := None |}.

(** What a read [o[key]] gives. *)
Inductive Value :=
| VUndefined
| VPosition (pos : Position.t)
| VNumber (v : num)
| VBuiltin.   (* a method of [Object.prototype], or [Object.prototype] itself *)

(** [Object.prototype[key]] for a key other than ["__proto__"]. *)
Definition fromObjectPrototype (key : string) : Value :=
  if bool_decide (key ∈ objectPrototypeKeys) then VBuiltin else VUndefined.

(** A read of a key that is not an own property: the getter of [__proto__]
    returns the prototype of [o]; another key is looked up in the prototype
    of [o], then in [Object.prototype]. *)
Definition inherited (o : t) (key : string) : Value :=
  if decide (key = "__proto__"%string) then
    match proto o with
    | Some pos => VPosition pos
    | None => VBuiltin
    end
  else
    match proto o with
    | Some pos =>
        if decide (key = "x"%string) then VNumber (Position.x pos)
        else if decide (key = "y"%string) then VNumber (Position.y pos)
        else fromObjectPrototype key
    | None => fromObjectPrototype key
    end.

(** [o[key]] *)
Definition get (o : t) (key : string) : Value :=
  match own o !! key with
  | Some pos => VPosition pos
  | None => inherited o key
  end.

(** [o[key] = pos]: the setter of [__proto__] replaces the prototype, unless
    the object has an own property of that name; any other assignment makes
    or changes an own property. *)
Definition set (o : t) (key : string) (pos : Position.t) : t :=
  if decide (key = "__proto__"%string /\ own o !! key = None)
  then {| own := own o; proto := Some pos |}
  else {| own := <[key := pos]> (own o); proto := proto o |}.

(** Truthiness: [0] and [NaN] are falsy, objects and functions truthy. *)
Definition truthy (v : Value) : bool :=
  match v with
  | VUndefined => false
  | VPosition _ => true
  | VNumber (Some r) => if Req_dec_T r 0 then false else true
  | VNumber None => false
  | VBuiltin => true
  end.

(** [v.x] and [v.y] of a truthy value: numbers and the built-in objects have
    no such property. *)
Definition getX (v : Value) : num :=
  match v with
  | VPosition pos => Position.x pos
  | _ => None
  end.

Definition getY (v : Value) : num :=
  match v with
  | VPosition pos => Position.y pos
  | _ => None
  end.

End JsObject.

(** ** components/PipelineGraph.tsx *)
Module PipelineGraph.
Import JsString JsNumber.

(** *** Props and environment *)

Record Props := {
  steps : list Types.PipelineStep;
  activeStepId : option string;
  savedPositions : option JsObject.t
}.

(** What the effect reads from the document: whether [svgRef.current] is
    set, and the [clientWidth] of its parent element when there is one. *)
Record Dom := {
  svgCurrent : bool;
  clientWidth : option Z
}.

(** *** Graph model *)

(** A node object [{ ...s, layer }], later given [x] and [y]. *)
Record GraphNode := {
  step : Types.PipelineStep;
  layer : nat;
  x : num;
  y : num
}.

(** A link [{ source, target }]: two references to node objects. *)
Record Link := { source : nat; target : nat }.

Definition layerOf (stepName : string) : nat :=
  let name := toLowerCase stepName in
  if includes name "fetch" || includes name "read" || includes name "source"
  then 0
  else if includes name "store" || includes name "load"
          || includes name "sink" || includes name "postgre"
  then 2
  else 1.

(** [steps.map((s, i) => { ...; return { ...s, layer }; })] *)
Definition nodes (steps : list Types.PipelineStep) : list GraphNode :=
  (fun s => {| step := s; layer := layerOf (Types.name s);
               x := None; y := None |}) <$> steps.

(** [nodes.filter(n => n.layer === k)], as references. *)
Definition bucket (k : nat) (ns : list GraphNode) : list nat :=
  filter (fun i => layer <$> ns !! i = Some k) (seq 0 (length ns)).

Definition layers (ns : list GraphNode) : list (list nat) :=
  [bucket 0 ns; bucket 1 ns; bucket 2 ns].

(** [Array.prototype.indexOf] on references: -1 when absent. *)
Fixpoint indexOf (r : nat) (l : list nat) : Z :=
  match l with
  | [] => -1
  | r' :: l' =>
      if decide (r' = r) then 0
      else let k := indexOf r l' in if (k <? 0)%Z then -1 else (k + 1)%Z
  end.

(** [nodes.find(n => n.id === ident)], as a reference. *)
Definition find (ns : list GraphNode) (ident : string) : option nat :=
  fst <$> list_find (fun n => Types.id (step n) = ident) ns.

(** The two nested [forEach] loops that [push] onto [links]. *)
Definition pushLink (ns : list GraphNode) (st : Types.PipelineStep)
    (acc : list Link) (depId : string) : list Link :=
  match find ns depId, find ns (Types.id st) with
  | Some s, Some t => acc ++ [{| source := s; target := t |}]
  | _, _ => acc
  end.

Definition links (steps : list Types.PipelineStep) (ns : list GraphNode)
    : list Link :=
  foldl (fun acc st => foldl (pushLink ns st) acc (Types.dependencies st))
        [] steps.

(** *** Layout *)

Definition baseHeight : nat := 320.
Definition perNodeHeight : nat := 70.
Definition paddingX : Z := 100.
Definition paddingY : Z := 50.

(** [container?.clientWidth || 800] *)
Definition resolveWidth (d : Dom) : Z :=
  match clientWidth d with
  | Some w => if (w =? 0)%Z then 800%Z else w
  | None => 800%Z
  end.

(** [Math.max(...layers.map(layer => layer.length), 1)] *)
Definition maxLayerSize (ls : list (list nat)) : nat :=
  foldr Nat.max 1 (length <$> ls).

Definition height (ls : list (list nat)) : nat :=
  Nat.max baseHeight (maxLayerSize ls * perNodeHeight).

Definition layerX (width : Z) (lay : nat) : num :=
  (lit paddingX
   + lit (Z.of_nat lay) * ((lit width - lit paddingX * lit 2) / lit 2))%num.

Definition layerY (height : nat) (len : nat) (nodeIdx : Z) : num :=
  (lit paddingY
   + ((lit (Z.of_nat height) - lit paddingY * lit 2)
      / (lit (Z.of_nat len) + lit 1)) * (lit nodeIdx + lit 1))%num.

(** The body of the placement loop for the node object [i]. *)
Definition placeNode (ls : list (list nat)) (width : Z) (height : nat)
    (i : nat) (n : GraphNode) : option GraphNode :=
  layerNodes ← ls !! layer n;
  let nodeIdx := indexOf i layerNodes in
  Some {| step := step n; layer := layer n;
          x := layerX width (layer n);
          y := layerY height (length layerNodes) nodeIdx |}.

Definition placeAll (ls : list (list nat)) (width : Z) (height : nat)
    (ns : list GraphNode) : option (list GraphNode) :=
  mapM (fun p => placeNode ls width height p.1 p.2) (imap pair ns).

(** [const saved = savedPositions[n.id];
     if (saved) { n.x = saved.x; n.y = saved.y; }] *)
Definition restoreNode (sp : JsObject.t) (n : GraphNode) : GraphNode :=
  let saved := JsObject.get sp (Types.id (step n)) in
  if JsObject.truthy saved
  then {| step := step n; layer := layer n;
          x := JsObject.getX saved; y := JsObject.getY saved |}
  else n.

(** [if (savedPositions) nodes.forEach(...)] *)
Definition applySaved (saved : option JsObject.t)
    (ns : list GraphNode) : list GraphNode :=
  match saved with
  | Some sp => restoreNode sp <$> ns
  | None => ns
  end.

Definition positionOf (n : GraphNode) : Position.t :=
  {| Position.x := x n; Position.y := y n |}.

(** [nodes.reduce((acc, n) => { acc[n.id] = { x: n.x, y: n.y }; return acc; }, {})] *)
Definition seedPositions (ns : list GraphNode) : JsObject.t :=
  foldl (fun acc n => JsObject.set acc (Types.id (step n)) (positionOf n))
        JsObject.empty ns.

(** *** Link paths *)

(** The path [M p0 C c1 c2 p3] of a link. *)
Record CubicPath := {
  start : Position.t;
  control1 : Position.t;
  control2 : Position.t;
  finish : Position.t
}.

(** The [d] callback of [linkSelection]. *)
Definition drawLink (s t : GraphNode) : CubicPath :=
  let dx := (x t - x s)%num in
  let dy := (y t - y s)%num in
  let dr := sqrt (dx * dx + dy * dy)%num in
  {| start := {| Position.x := x s; Position.y := y s |};
     control1 := {| Position.x := (x s + dr / lit 2)%num; Position.y := y s |};
     control2 := {| Position.x := (x t - dr / lit 2)%num; Position.y := y t |};
     finish := {| Position.x := x t; Position.y := y t |} |}.

(** The [d] callback of [updateLinks]. *)
Definition updateLink (s t : GraphNode) : CubicPath :=
  let dx := (x t - x s)%num in
  let dy := (y t - y s)%num in
  let dr := sqrt (dx * dx + dy * dy)%num in
  {| start := {| Position.x := x s; Position.y := y s |};
     control1 := {| Position.x := (x s + dr / lit 2)%num; Position.y := y s |};
     control2 := {| Position.x := (x t - dr / lit 2)%num; Position.y := y t |};
     finish := {| Position.x := x t; Position.y := y t |} |}.

(** A callback applied to the datum [d]: [d.source] and [d.target] are read
    through the references. *)
Definition onDatum (f : GraphNode -> GraphNode -> CubicPath)
    (ns : list GraphNode) (d : Link) : option CubicPath :=
  s ← ns !! source d; t ← ns !! target d; Some (f s t).

(** *** View transform *)

Record ZoomTransform := { k : R; tx : R; ty : R }.

Definition zoomIdentity : ZoomTransform := {| k := 1; tx := 0; ty := 0 |}.

(** [.scaleExtent([0.7, 1.6])] *)
Definition scaleExtent : R * R := (7 / 10, 16 / 10)%R.

(** The zoom behaviour of d3 (not part of this repository): the scale of a
    transform it emits is the requested scale constrained to the extent,
    [Math.max(extent[0], Math.min(extent[1], k))]. *)
Definition constrainScale (extent : R * R) (requested : R) : R :=
  Rmax extent.1 (Rmin extent.2 requested).

(** *** The scene of one pass and the state of the component *)

Record Scene := {
  sceneNodes : list GraphNode;
  sceneLinks : list Link;
  linkPaths : list CubicPath;          (* the [d] attribute of each path *)
  nodeTransforms : list Position.t;    (* the [translate] of each group *)
  viewTransform : ZoomTransform        (* the transform of [g] *)
}.

Record Component := {
  svgHeight : nat;
  positionsRef : JsObject.t;
  scene : option Scene
}.

(** [useState(350)], [useRef({})], nothing drawn. *)
Definition mount : Component :=
  {| svgHeight := 350; positionsRef := JsObject.empty; scene := None |}.

(** The body of [useEffect]. *)
Definition renderPass (p : Props) (d : Dom) (c : Component)
    : option Component :=
  if negb (svgCurrent d) || (length (steps p) =? 0) then Some c
  else
    let width := resolveWidth d in
    let ns0 := nodes (steps p) in
    let ls := layers ns0 in
    let h := height ls in
    ns1 ← placeAll ls width h ns0;
    let ns := applySaved (savedPositions p) ns1 in
    let lks := links (steps p) ns in
    paths ← mapM (onDatum drawLink ns) lks;
    Some {| svgHeight := h;
            positionsRef := seedPositions ns;
            scene := Some {| sceneNodes := ns;
                             sceneLinks := lks;
                             linkPaths := paths;
                             nodeTransforms := positionOf <$> ns;
                             viewTransform := zoomIdentity |} |}.

(** The [drag] handler on the group of node [i], at the event position
    [(ex, ey)]. *)
Definition onDrag (i : nat) (ex ey : R) (c : Component) : option Component :=
  sc ← scene c;
  d ← sceneNodes sc !! i;
  let d' := {| step := step d; layer := layer d; x := Some ex; y := Some ey |} in
  let ns := <[i := d']> (sceneNodes sc) in
  paths ← mapM (onDatum updateLink ns) (sceneLinks sc);
  Some {| svgHeight := svgHeight c;
          positionsRef :=
            JsObject.set (positionsRef c) (Types.id (step d')) (positionOf d');
          scene := Some {| sceneNodes := ns;
                           sceneLinks := sceneLinks sc;
                           linkPaths := paths;
                           nodeTransforms := <[i := positionOf d']> (nodeTransforms sc);
                           viewTransform := viewTransform sc |} |}.

(** The [zoom] handler: [g.attr('transform', event.transform.toString())]. *)
Definition onZoom (t : ZoomTransform) (sc : Scene) : Scene :=
  {| sceneNodes := sceneNodes sc; sceneLinks := sceneLinks sc;
     linkPaths := linkPaths sc; nodeTransforms := nodeTransforms sc;
     viewTransform := t |}.

(** A zoom gesture that requests the transform [t]: the behaviour emits the
    event with the constrained scale. *)
Definition zoomGesture (t : ZoomTransform) (sc : Scene) : Scene :=
  onZoom {| k := constrainScale scaleExtent (k t); tx := tx t; ty := ty t |} sc.

Definition zoomOn (t : ZoomTransform) (c : Component) : option Component :=
  sc ← scene c;
  Some {| svgHeight := svgHeight c; positionsRef := positionsRef c;
          scene := Some (zoomGesture t sc) |}.

(** The click handler of the save button hands over [positionsRef.current]. *)
Definition onSave (c : Component) : JsObject.t := positionsRef c.

(** The states of a mounted component: passes of the effect, drag frames and
    zoom gestures, in any order. *)
Inductive Reachable : Component -> Prop :=
| reach_mount : Reachable mount
| reach_render p d c c' :
    Reachable c -> renderPass p d c = Some c' -> Reachable c'
| reach_drag i ex ey c c' :
    Reachable c -> onDrag i ex ey c = Some c' -> Reachable c'
| reach_zoom t c c' :
    Reachable c -> zoomOn t c = Some c' -> Reachable c'.

(** *** Derived notions used in the statements *)

Definition stepIds (steps : list Types.PipelineStep) : list string :=
  Types.id <$> steps.

Definition nodeIds (ns : list GraphNode) : list string :=
  (fun n => Types.id (step n)) <$> ns.

(** The node object [i] after the placement loop, when its bucket exists. *)
Definition placed (ns0 : list GraphNode) (width : Z) (i : nat)
    (n : GraphNode) : GraphNode :=
  let layerNodes := bucket (layer n) ns0 in
  {| step := step n; layer := layer n;
     x := layerX width (layer n);
     y := layerY (height (layers ns0)) (length layerNodes)
                 (indexOf i layerNodes) |}.

(** The node objects at the end of the layout: the placement loop, then the
    saved positions. *)
Definition laidOut (p : Props) (d : Dom) : list GraphNode :=
  let ns0 := nodes (steps p) in
  applySaved (savedPositions p) (imap (placed ns0 (resolveWidth d)) ns0).

(** The link a declared dependency gives, when both lookups succeed. *)
Definition linkOf (ns : list GraphNode) (st : Types.PipelineStep)
    (depId : string) : option Link :=
  s ← find ns depId; t ← find ns (Types.id st);
  Some {| source := s; target := t |}.

(** What a pass draws on a link and on the group of a node, besides the
    path and the translation. *)

Definition nodeRadius : Z := 22.

Inductive Colour := linkActive | linkDefault.

(** [d.id === activeStepId] *)
Definition isActive (active : option string) (n : GraphNode) : bool :=
  bool_decide (active = Some (Types.id (step n))).

(** The [stroke] callback of a link:
    [d.target.id === activeStepId ? colors.linkActive : colors.linkDefault]. *)
Definition linkStroke (active : option string) (ns : list GraphNode)
    (d : Link) : option Colour :=
  t ← ns !! target d;
  Some (if isActive active t then linkActive else linkDefault).

(** [nodeGroups.filter(d => d.id === activeStepId)]: the groups that get the
    glow circle. *)
Definition glowGroups (active : option string) (ns : list GraphNode)
    : list nat :=
  filter (fun i => isActive active <$> ns !! i = Some true)
         (seq 0 (length ns)).

(** [d.name.length > 16 ? d.name.substring(0, 13) + '...' : d.name] *)
Definition caption (n : GraphNode) : string :=
  let name := Types.name (step n) in
  if 16 <? String.length name
  then (JsString.substring name 0 13 +:+ "...")%string
  else name.

(** Drag frames and zoom gestures on what one pass drew. *)
Inductive Interacts : Component -> Component -> Prop :=
| interacts_refl c : Interacts c c
| interacts_drag i ex ey c c' c'' :
    Interacts c c' -> onDrag i ex ey c' = Some c'' -> Interacts c c''
| interacts_zoom t c c' c'' :
    Interacts c c' -> zoomOn t c' = Some c'' -> Interacts c c''.

(** The drawn elements agree with the node objects: each group is translated
    to the position of its node, each path is the path between the two nodes
    of its link. *)
Definition sceneCoherent (sc : Scene) : Prop :=
  nodeTransforms sc = positionOf <$> sceneNodes sc
  /\ mapM (onDatum drawLink (sceneNodes sc)) (sceneLinks sc)
     = Some (linkPaths sc).

(** The last node of [ns] with the identifier [key]. *)
Definition lastWith (ns : list GraphNode) (key : string) : option GraphNode :=
  snd <$> list_find (fun n => Types.id (step n) = key) (reverse ns).

(** Both coordinates of the node are finite numbers. *)
Definition finiteNode (n : GraphNode) : Prop := finite (x n) /\ finite (y n).




(** Links refer to node objects of the scene, and every drawn element has
    its datum. *)
Definition sceneOk (sc : Scene) : Prop :=
  Forall (fun l => source l < length (sceneNodes sc)
                   /\ target l < length (sceneNodes sc)) (sceneLinks sc)
  /\ length (nodeTransforms sc) = length (sceneNodes sc)
  /\ (let lo := scaleExtent.1 in let hi := scaleExtent.2 in
      lo <= k (viewTransform sc) <= hi)%R.

End PipelineGraph.

(** ** components/PipelineGraph.tsx: the variant with a fixed height

    The file derives the nodes, the buckets and the links with the code of
    [PipelineGraph.nodes], [PipelineGraph.layers] and [PipelineGraph.links],
    and draws a link with the code of [PipelineGraph.drawLink]. *)
Module SimpleGraph.
Import JsString JsNumber PipelineGraph.

Definition height : Z := 350.
Definition nodeRadius : Z := 28.

Definition layerX (width : Z) (lay : nat) : num :=
  (lit 120 + lit (Z.of_nat lay) * ((lit width - lit 240) / lit 2))%num.

Definition layerY (len : nat) (nodeIdx : Z) : num :=
  ((lit height / (lit (Z.of_nat len) + lit 1)) * (lit nodeIdx + lit 1))%num.

Definition placeNode (ls : list (list nat)) (width : Z) (i : nat)
    (n : GraphNode) : option GraphNode :=
  layerNodes ← ls !! layer n;
  let nodeIdx := indexOf i layerNodes in
  Some {| step := step n; layer := layer n;
          x := layerX width (layer n);
          y := layerY (length layerNodes) nodeIdx |}.

Definition placeAll (ls : list (list nat)) (width : Z) (ns : list GraphNode)
    : option (list GraphNode) :=
  mapM (fun p => placeNode ls width p.1 p.2) (imap pair ns).

Record Drawing := {
  drawnNodes : list GraphNode;
  drawnLinks : list Link;
  drawnPaths : list CubicPath
}.

(** The body of [useEffect]: [prev] is what the svg element shows before. *)
Definition renderPass (sts : list Types.PipelineStep) (d : Dom)
    (prev : option Drawing) : option (option Drawing) :=
  if negb (svgCurrent d) || (length sts =? 0) then Some prev
  else
    let width := resolveWidth d in
    let ns0 := nodes sts in
    let ls := layers ns0 in
    ns ← placeAll ls width ns0;
    let lks := links sts ns in
    paths ← mapM (onDatum drawLink ns) lks;
    Some (Some {| drawnNodes := ns; drawnLinks := lks; drawnPaths := paths |}).

(** The node object [i] after the placement loop, when its bucket exists. *)
Definition placed (ns0 : list GraphNode) (width : Z) (i : nat)
    (n : GraphNode) : GraphNode :=
  {| step := step n; layer := layer n;
     x := layerX width (layer n);
     y := layerY (length (bucket (layer n) ns0))
                 (indexOf i (bucket (layer n) ns0)) |}.

(** [d.name.length > 18 ? d.name.substring(0, 15) + '...' : d.name] *)
Definition caption (n : GraphNode) : string :=
  let name := Types.name (step n) in
  if 18 <? String.length name
  then (JsString.substring name 0 15 +:+ "...")%string
  else name.

End SimpleGraph.

(** ** types.ts: [GeneratedPipeline] *)
Module GeneratedPipeline.

Inductive IssueType := info | warning | error | success.

Record ValidationIssue := { issueType : IssueType; message : string }.

Record t := {
  id : option string;
  name : string;
  description : string;
  airflowCode : string;
  requirements : list string;
  dockerConfig : string;
  steps : list Types.PipelineStep;
  monitoringMetrics : list string;
  validationSummary : option (list ValidationIssue);
  isAccepted : option bool;
  version : option string;
  timestamp : option Z
}.

End GeneratedPipeline.

(** ** App.tsx *)
Module App.
Import JsString JsNumber.

(** *** The saved layouts *)

(** [result.id || result.name || 'default'] *)
Definition positionsKey (result : GeneratedPipeline.t) : string :=
  orElse (orElse (default EmptyString (GeneratedPipeline.id result))
                 (GeneratedPipeline.name result))
         "default".

(** The state [dagPositions]: a record of the saved caches.  Its keys are the
    identifiers [generatePipelineId] makes, and every update copies the own
    properties into a new object literal, so it is a finite map over its own
    keys. *)
Definition DagPositions : Type := gmap string JsObject.t.

(** [useState({})] *)
Definition noPositions : DagPositions := ∅.

(** The props of [<PipelineGraph ... />]. *)
Definition graphProps (dagPositions : DagPositions)
    (result : GeneratedPipeline.t) (activeStepId : option string)
    : PipelineGraph.Props :=
  {| PipelineGraph.steps := GeneratedPipeline.steps result;
     PipelineGraph.activeStepId := activeStepId;
     PipelineGraph.savedPositions := dagPositions !! positionsKey result |}.

(** [onSavePositions]:
    [setDagPositions(prev => ({ ...prev, [key]: positions }))]. *)
Definition onSavePositions (result : GeneratedPipeline.t)
    (positions : JsObject.t) (prev : DagPositions)
    : DagPositions :=
  <[positionsKey result := positions]> prev.

(** The click on the save button of the graph of [result]. *)
Definition saveLayout (result : GeneratedPipeline.t)
    (c : PipelineGraph.Component) (prev : DagPositions) : DagPositions :=
  onSavePositions result (PipelineGraph.onSave c) prev.

(** *** The name of the downloaded project *)

(** Matches [[a-z0-9]]. *)
Definition isSafeChar (c : ascii) : bool :=
  let n := N_of_ascii c in
  ((97 <=? n) && (n <=? 122) || (48 <=? n) && (n <=? 57))%N.

(** [s.replace(/[^a-z0-9]+/g, '_')]: [inRun] tells that the character before
    is part of the run being replaced. *)
Fixpoint replaceUnsafe (inRun : bool) (s : string) : string :=
  match s with
  | EmptyString => EmptyString
  | String c s' =>
      if isSafeChar c then String c (replaceUnsafe false s')
      else if inRun then replaceUnsafe true s'
      else String "_" (replaceUnsafe true s')
  end.

(** [name.toLowerCase().replace(/[^a-z0-9]+/g, '_')] *)
Definition safeName (pipelineName : string) : string :=
  replaceUnsafe false (toLowerCase pipelineName).

Definition buildProjectZipName (pipelineName : string) : string :=
  (safeName pipelineName +:+ "_project.zip")%string.

(** The path of the DAG file in the archive and the name of the download, in
    [handleDownloadProject]. *)
Definition dagFilePath (result : GeneratedPipeline.t) : string :=
  ("dags/" +:+ safeName (GeneratedPipeline.name result) +:+ ".py")%string.

Definition downloadName (result : GeneratedPipeline.t) : string :=
  buildProjectZipName (orElse (GeneratedPipeline.name result) "pipeline").

(** *** The simulated run *)

(** The state the interval callback of [runSimulation] works on; the random
    live metrics are left out. *)
Record Simulation := {
  stepIdx : nat;
  activeStepId : option string;
  simulationLogs : list string;
  simulationProgress : num;
  outputPreviewShown : bool;
  intervalCleared : bool
}.

(** [runSimulation] up to [setInterval]; [active] and [preview] are the
    values of [activeStepId] and of the preview before. *)
Definition runSimulation (active : option string) (preview : bool)
    : Simulation :=
  {| stepIdx := 0; activeStepId := active;
     simulationLogs := ["[SYSTEM] Initializing Runtime...";
                        "[INFO] Validating logic paths..."]%string;
     simulationProgress := lit 0;
     outputPreviewShown := preview;
     intervalCleared := false |}.

(** One call of the interval callback. *)
Definition tick (result : GeneratedPipeline.t) (s : Simulation)
    : option Simulation :=
  if stepIdx s <? length (GeneratedPipeline.steps result) then
    step ← GeneratedPipeline.steps result !! stepIdx s;
    Some {| stepIdx := stepIdx s + 1;
            activeStepId := Some (Types.id step);
            simulationLogs :=
              simulationLogs s
              ++ [("[RUNNING] Task Execution: " +:+ Types.name step)%string];
            simulationProgress :=
              ((lit (Z.of_nat (stepIdx s)) + lit 1)
               / lit (Z.of_nat (length (GeneratedPipeline.steps result)))
               * lit 100)%num;
            outputPreviewShown := outputPreviewShown s;
            intervalCleared := false |}
  else
    Some {| stepIdx := stepIdx s;
            activeStepId := None;
            simulationLogs :=
              simulationLogs s
              ++ ["[SUCCESS] Architecture Verified.";
                  "[INFO] Ready for deployment."]%string;
            simulationProgress := simulationProgress s;
            outputPreviewShown := true;
            intervalCleared := true |}.

(** The interval fires until it is cleared: [n] periods after the start. *)
Fixpoint ticks (result : GeneratedPipeline.t) (n : nat) (s : Simulation)
    : option Simulation :=
  match n with
  | 0 => Some s
  | S n' =>
      if intervalCleared s then Some s
      else s' ← tick result s; ticks result n' s'
  end.

(** *** The simulated progress of a generation *)



End App.

(** ** The properties as the specification words them *)
Module Spec.
Import JsString JsNumber PipelineGraph.

(** The lower-cased name [l] has an ingestion keyword. *)
Definition ingestionName (l : string) : Prop :=
  occursIn "fetch" l \/ occursIn "read" l \/ occursIn "source" l.

(** The lower-cased name [l] has a persistence keyword. *)
Definition persistenceName (l : string) : Prop :=
  occursIn "store" l \/ occursIn "load" l \/ occursIn "sink" l
  \/ occursIn "postgre" l.

(** "two control points offset from each endpoint by half the
    source-destination Euclidean distance along the vertical coordinate
    only": the control points keep the [x] of their endpoint and their [y]
    is half the distance away from it. *)
Definition verticalControlPoints (sx sy tx ty : R) (p : CubicPath) : Prop :=
  let half := (R_sqrt.sqrt ((tx - sx) * (tx - sx) + (ty - sy) * (ty - sy)) / 2)%R in
  exists c1y c2y : R,
    control1 p = {| Position.x := Some sx; Position.y := Some c1y |}
    /\ control2 p = {| Position.x := Some tx; Position.y := Some c2y |}
    /\ Rabs (c1y - sy) = half /\ Rabs (c2y - ty) = half.

(** The rule of the code: the control points keep the [y] of their endpoint;
    the source one is half the distance to the right, the destination one
    half the distance to the left. *)
Definition horizontalControlPoints (sx sy tx ty : R) (p : CubicPath) : Prop :=
  let half := (R_sqrt.sqrt ((tx - sx) * (tx - sx) + (ty - sy) * (ty - sy)) / 2)%R in
  start p = {| Position.x := Some sx; Position.y := Some sy |}
  /\ control1 p = {| Position.x := Some (sx + half)%R; Position.y := Some sy |}
  /\ control2 p = {| Position.x := Some (tx - half)%R; Position.y := Some ty |}
  /\ finish p = {| Position.x := Some tx; Position.y := Some ty |}.



(** A node object at a finite position. *)
Definition nodeAt (st : Types.PipelineStep) (lay : nat) (px py : R)
    : GraphNode :=
  {| step := st; layer := lay; x := Some px; y := Some py |}.

End Spec.

(** ** Sample data *)
Module Examples.
Import JsNumber PipelineGraph.

Definition mkStep (ident nm : string) (deps : list string)
    : Types.PipelineStep :=
  {| Types.id := ident; Types.name := nm; Types.description := EmptyString;
     Types.dependencies := deps; Types.status := None; Types.type := None |}.

(** A three-step pipeline: [B] also names an identifier that no step has, and
    [C] names itself. *)
Definition stepA : Types.PipelineStep := mkStep "A" "Fetch Readings" [].
Definition stepB : Types.PipelineStep :=
  mkStep "B" "Clean Data" ["A"; "ghost"].
Definition stepC : Types.PipelineStep :=
  mkStep "C" "Store Results" ["B"; "C"].
Definition pipeline : list Types.PipelineStep := [stepA; stepB; stepC].

Definition attached : Dom := {| svgCurrent := true; clientWidth := Some 1000%Z |}.


Definition props (saved : option JsObject.t) : Props :=
  {| steps := pipeline; activeStepId := None; savedPositions := saved |}.






(** Two steps with one identifier, the second depending on it, and a step
    whose identifier is [__proto__]. *)
Definition twinA1 : Types.PipelineStep := mkStep "A" "Fetch Readings" [].
Definition twinA2 : Types.PipelineStep := mkStep "A" "Store Results" ["A"].
Definition stepP : Types.PipelineStep := mkStep "__proto__" "Clean Data" [].
Definition twins : list Types.PipelineStep := [twinA1; twinA2; stepP].

Definition propsTwins : Props :=
  {| steps := twins; activeStepId := None; savedPositions := None |}.

(** A generated pipeline with the three steps, before it is given an
    identifier. *)
Definition result : GeneratedPipeline.t :=
  {| GeneratedPipeline.id := None;
     GeneratedPipeline.name := "Finance API / Daily ETL";
     GeneratedPipeline.description := EmptyString;
     GeneratedPipeline.airflowCode := EmptyString;
     GeneratedPipeline.requirements := [];
     GeneratedPipeline.dockerConfig := EmptyString;
     GeneratedPipeline.steps := pipeline;
     GeneratedPipeline.monitoringMetrics := [];
     GeneratedPipeline.validationSummary := None;
     GeneratedPipeline.isAccepted := None;
     GeneratedPipeline.version := None;
     GeneratedPipeline.timestamp := None |}.

End Examples.

(** * Properties *)

(** ** Strings *)
Section StringFacts.
Import JsString.
Local Open Scope string_scope.

Lemma startsWith_spec (s p : string) :
  startsWith s p = true <-> exists post, s = p +:+ post.
Proof.
  revert s. induction p as [|a p IH]; intros s.
  - split; [intros _; exists s; reflexivity | intros _; now destruct s].
  - destruct s as [|b s]; simpl.
    + split; [discriminate | intros [post H]; discriminate].
    + rewrite andb_true_iff, IH. split.
      * intros [Hab [post ->]]. apply Ascii.eqb_eq in Hab as ->.
        exists post. reflexivity.
      * intros [post H]. injection H as -> ->. split.
        -- apply Ascii.eqb_refl.
        -- exists post. reflexivity.
Qed.

Lemma includes_unfold (s sub : string) :
  includes s sub
  = startsWith s sub
    || match s with EmptyString => false | String _ s' => includes s' sub end.
Proof. destruct s; reflexivity. Qed.

Lemma includes_occursIn (s sub : string) :
  includes s sub = true <-> occursIn sub s.
Proof.
  unfold occursIn. induction s as [|c s IH].
  - rewrite includes_unfold, orb_false_r, startsWith_spec. split.
    + intros [post H]. exists EmptyString, post. exact H.
    + intros [[|a pre] [post H]]; [exists post; exact H | discriminate].
  - rewrite includes_unfold, orb_true_iff, startsWith_spec, IH. split.
    + intros [[post H] | [pre [post H]]].
      * exists EmptyString, post. exact H.
      * exists (String c pre), post. simpl. now rewrite H.
    + intros [[|a pre] [post H]].
      * left. exists post. exact H.
      * right. simpl in H. injection H as _ H. exists pre, post. exact H.
Qed.

Lemma includes_false (s sub : string) :
  includes s sub = false <-> ~ occursIn sub s.
Proof.
  rewrite <- includes_occursIn. destruct (includes s sub); split; intros H;
    try reflexivity; try discriminate; try (intros ?; discriminate).
  exfalso. now apply H.
Qed.

Lemma lowerChar_swapChar (c : ascii) : lowerChar (swapChar c) = lowerChar c.
Proof. destruct c as [[] [] [] [] [] [] [] []]; vm_compute; reflexivity. Qed.

Lemma lowerChar_idemp (c : ascii) : lowerChar (lowerChar c) = lowerChar c.
Proof. destruct c as [[] [] [] [] [] [] [] []]; vm_compute; reflexivity. Qed.

Lemma toLowerCase_idemp (s : string) :
  toLowerCase (toLowerCase s) = toLowerCase s.
Proof.
  induction s as [|c s IH]; simpl; [reflexivity|].
  now rewrite lowerChar_idemp, IH.
Qed.

Lemma toLowerCase_recase (mask : list bool) (s : string) :
  toLowerCase (recase mask s) = toLowerCase s.
Proof.
  revert mask. induction s as [|c s IH]; intros mask;
    destruct mask as [|b mask]; simpl; try reflexivity.
  rewrite IH. destruct b; [now rewrite lowerChar_swapChar | reflexivity].
Qed.

End StringFacts.

(** ** Graph model: nodes and links *)
Section GraphModel.
Import JsString PipelineGraph Spec.

Lemma layerOf_cases (nm : string) :
  (ingestionName (toLowerCase nm) -> layerOf nm = 0)
  /\ (~ ingestionName (toLowerCase nm) ->
      persistenceName (toLowerCase nm) -> layerOf nm = 2)
  /\ (~ ingestionName (toLowerCase nm) ->
      ~ persistenceName (toLowerCase nm) -> layerOf nm = 1).
Proof.
  unfold layerOf, ingestionName, persistenceName.
  set (l := toLowerCase nm).
  rewrite <- !includes_occursIn.
  destruct (includes l "fetch"), (includes l "read"), (includes l "source"),
    (includes l "store"), (includes l "load"), (includes l "sink"),
    (includes l "postgre"); simpl; intuition congruence.
Qed.

Lemma layerOf_le_2 (nm : string) : layerOf nm <= 2.
Proof.
  unfold layerOf.
  repeat match goal with |- context [includes ?a ?b] =>
    destruct (includes a b) end; simpl; lia.
Qed.

Lemma layerOf_recase (mask : list bool) (nm : string) :
  layerOf (recase mask nm) = layerOf nm.
Proof. unfold layerOf. now rewrite toLowerCase_recase. Qed.

Lemma nodes_lookup (steps : list Types.PipelineStep) (i : nat) :
  nodes steps !! i
  = (fun s => {| step := s; layer := layerOf (Types.name s);
                 x := None; y := None |}) <$> steps !! i.
Proof. unfold nodes. apply list_lookup_fmap. Qed.

Lemma nodeIds_nodes (steps : list Types.PipelineStep) :
  nodeIds (nodes steps) = stepIds steps.
Proof.
  unfold nodeIds, nodes, stepIds. rewrite <- list_fmap_compose.
  reflexivity.
Qed.

Lemma nodeIds_lookup (ns : list GraphNode) (i : nat) :
  nodeIds ns !! i = (fun n => Types.id (step n)) <$> ns !! i.
Proof. apply list_lookup_fmap. Qed.

(** [find] returns the first node object with the identifier. *)
Lemma find_Some (ns : list GraphNode) (ident : string) (i : nat) :
  find ns ident = Some i <->
  exists n, ns !! i = Some n /\ Types.id (step n) = ident
            /\ forall j m, ns !! j = Some m -> j < i ->
                           Types.id (step m) <> ident.
Proof.
  unfold find. split.
  - intros H. apply fmap_Some in H as [[j n] [H ->]].
    apply list_find_Some in H. exists n. exact H.
  - intros [n H]. apply fmap_Some. exists (i, n). split; [|reflexivity].
    apply list_find_Some. exact H.
Qed.

Lemma find_lt (ns : list GraphNode) (ident : string) (i : nat) :
  find ns ident = Some i -> i < length ns.
Proof.
  intros H. apply find_Some in H as [n [H _]].
  eapply lookup_lt_Some, H.
Qed.

Lemma find_is_Some (ns : list GraphNode) (ident : string) :
  is_Some (find ns ident) <-> ident ∈ nodeIds ns.
Proof.
  unfold find, nodeIds. rewrite fmap_is_Some. split.
  - intros [[i n] H]. apply list_find_Some in H as [H [<- _]].
    apply list_elem_of_fmap. exists n. split; [reflexivity|].
    eapply list_elem_of_lookup_2, H.
  - intros H. apply list_elem_of_fmap in H as [n [-> H]].
    eapply list_find_elem_of; [exact H | reflexivity].
Qed.

Lemma find_None (ns : list GraphNode) (ident : string) :
  find ns ident = None <-> ident ∉ nodeIds ns.
Proof.
  rewrite <- find_is_Some, <- eq_None_not_Some. reflexivity.
Qed.

(** [find] only reads the identifiers. *)
Lemma find_ids (ns ns' : list GraphNode) (ident : string) :
  nodeIds ns = nodeIds ns' -> find ns ident = find ns' ident.
Proof.
  unfold find, nodeIds. intros H.
  pose proof (list_find_fmap (fun n => Types.id (step n))
                (fun s => s = ident) ns) as H1.
  pose proof (list_find_fmap (fun n => Types.id (step n))
                (fun s => s = ident) ns') as H2.
  rewrite H in H1. rewrite H1 in H2.
  destruct (list_find _ ns) as [[i n]|], (list_find _ ns') as [[i' n']|];
    simpl in *; congruence.
Qed.

Lemma pushLink_linkOf ns st acc depId :
  pushLink ns st acc depId = acc ++ option_list (linkOf ns st depId).
Proof.
  unfold pushLink, linkOf.
  destruct (find ns depId), (find ns (Types.id st)); simpl;
    now rewrite ?app_nil_r.
Qed.

Lemma foldl_pushLink ns st deps acc :
  foldl (pushLink ns st) acc deps = acc ++ omap (linkOf ns st) deps.
Proof.
  revert acc. induction deps as [|depId deps IH]; intros acc; simpl.
  - now rewrite app_nil_r.
  - rewrite IH, pushLink_linkOf, <- app_assoc. f_equal.
    now destruct (linkOf ns st depId).
Qed.

(** The nested loops written as a comprehension: in step order, then in
    dependency order, one link per dependency that resolves. *)
Lemma links_bind steps ns :
  links steps ns
  = steps ≫= (fun st => omap (linkOf ns st) (Types.dependencies st)).
Proof.
  unfold links.
  enough (forall acc,
    foldl (fun acc st => foldl (pushLink ns st) acc (Types.dependencies st))
          acc steps
    = acc ++ (steps ≫= (fun st => omap (linkOf ns st) (Types.dependencies st))))
    as H by apply (H []).
  induction steps as [|st steps IH]; intros acc; simpl.
  - now rewrite app_nil_r.
  - rewrite IH, foldl_pushLink, <- app_assoc. reflexivity.
Qed.

Lemma elem_of_links steps ns l :
  l ∈ links steps ns <->
  exists st depId, st ∈ steps /\ depId ∈ Types.dependencies st
                   /\ linkOf ns st depId = Some l.
Proof.
  rewrite links_bind, list_elem_of_bind. split.
  - intros [st [H Hst]]. apply list_elem_of_omap in H as [depId [Hd Hl]].
    eauto.
  - intros [st [depId [Hst [Hd Hl]]]]. exists st. split; [|exact Hst].
    apply list_elem_of_omap. eauto.
Qed.

Lemma linkOf_Some ns st depId l :
  linkOf ns st depId = Some l <->
  find ns depId = Some (source l) /\ find ns (Types.id st) = Some (target l).
Proof.
  unfold linkOf. destruct l as [s t]; simpl.
  destruct (find ns depId) as [s'|], (find ns (Types.id st)) as [t'|];
    simpl; split; try intros [? ?]; try discriminate; try congruence.
  intros H. injection H as -> ->. tauto.
Qed.

Lemma links_in_range steps ns :
  Forall (fun l => source l < length ns /\ target l < length ns)
         (links steps ns).
Proof.
  apply Forall_forall. intros l H.
  apply elem_of_links in H as [st [depId [_ [_ H]]]].
  apply linkOf_Some in H as [Hs Ht]. eauto using find_lt.
Qed.

Lemma links_ids steps ns ns' :
  nodeIds ns = nodeIds ns' -> links steps ns = links steps ns'.
Proof.
  intros H. rewrite !links_bind. apply list_bind_ext; [|reflexivity].
  intros st. apply list_omap_ext, Forall_Forall2_diag, Forall_forall.
  intros depId _. unfold linkOf. now rewrite !(find_ids ns ns' _ H).
Qed.

(** A step of the list resolves under its own identifier. *)
Lemma find_own steps ns st :
  nodeIds ns = stepIds steps -> st ∈ steps ->
  is_Some (find ns (Types.id st)).
Proof.
  intros Hm Hst. apply find_is_Some. rewrite Hm.
  now apply list_elem_of_fmap_2.
Qed.

Lemma linkOf_resolves steps ns st depId :
  nodeIds ns = stepIds steps -> st ∈ steps ->
  (depId ∈ stepIds steps <-> is_Some (linkOf ns st depId)).
Proof.
  intros Hm Hst. destruct (find_own steps ns st Hm Hst) as [t Ht].
  rewrite <- Hm, <- find_is_Some. unfold linkOf. rewrite Ht.
  destruct (find ns depId); simpl; split; intros [? ?]; eauto; discriminate.
Qed.

Lemma length_omap_filter {A B} (f : A -> option B) (l : list A) :
  length (omap f l) = length (filter (fun a => is_Some (f a)) l).
Proof.
  induction l as [|a l IH]; [reflexivity|].
  rewrite filter_cons. csimpl.
  destruct (decide (is_Some (f a))) as [[b Hb]|Hn].
  - rewrite Hb. simpl. now rewrite IH.
  - destruct (f a) as [b|]; [exfalso; eauto | exact IH].
Qed.

Lemma length_bind_sum {A B} (f : A -> list B) (l : list A) :
  length (l ≫= f) = sum_list ((fun a => length (f a)) <$> l).
Proof.
  induction l as [|a l IH]; [reflexivity|]. csimpl.
  now rewrite length_app, IH.
Qed.

End GraphModel.

(** ** Claims on the graph model *)
Section GraphModelClaims.
Import JsString PipelineGraph Spec.

Example recase_fetch_readings :
  recase [false; true; true; true; true] "Fetch Readings" = "FETCH Readings"
  /\ recase [false; true; true; true; true; false; true] "Fetch Readings"
     = "FETCH readings".
Proof. split; reflexivity. Qed.

(** C1: the layer of every node is a function of the lower-cased display name
    of its step alone: 0 when the lower-cased name has "fetch", "read" or
    "source"; otherwise 2 when it has "store", "load", "sink" or "postgre";
    otherwise 1.  A name with keywords of both groups gets layer 0, and
    writing the name in another casing does not change the layer. *)
Theorem layer_from_lowercased_name :
  (forall (steps : list Types.PipelineStep) i s,
      steps !! i = Some s ->
      exists n, nodes steps !! i = Some n /\ step n = s
                /\ layer n = layerOf (Types.name s))
  /\ (forall nm,
        (ingestionName (toLowerCase nm) -> layerOf nm = 0)
        /\ (~ ingestionName (toLowerCase nm) ->
            persistenceName (toLowerCase nm) -> layerOf nm = 2)
        /\ (~ ingestionName (toLowerCase nm) ->
            ~ persistenceName (toLowerCase nm) -> layerOf nm = 1))
  /\ (forall nm,
        ingestionName (toLowerCase nm) -> persistenceName (toLowerCase nm) ->
        layerOf nm = 0)
  /\ (forall nm nm', toLowerCase nm = toLowerCase nm' -> layerOf nm = layerOf nm')
  /\ (forall mask nm, layerOf (recase mask nm) = layerOf nm)
  /\ (layerOf "Fetch Readings" = 0 /\ layerOf "FETCH readings" = 0
      /\ layerOf "Store Results" = 2 /\ layerOf "STORE results" = 2
      /\ layerOf "Clean Data" = 1 /\ layerOf "clean DATA" = 1
      /\ layerOf "Load Source" = 0).
Proof.
  split; [|split; [|split; [|split; [|split]]]].
  - intros steps i s H. rewrite nodes_lookup, H. simpl. eauto.
  - apply layerOf_cases.
  - intros nm H _. now apply layerOf_cases.
  - intros nm nm' H. unfold layerOf. now rewrite H.
  - apply layerOf_recase.
  - repeat split; reflexivity.
Qed.

(** C5: the links are, in step order and then in dependency order, one link
    for each declared dependency whose identifier is the identifier of a step
    (the step's own identifier always resolves), from the first node with the
    dependency's identifier to the first node with the step's; a dependency
    whose identifier no step has gives no link, and nothing fails. *)
Theorem links_one_per_resolvable_dependency
    (steps : list Types.PipelineStep) (ns : list GraphNode) :
  nodeIds ns = stepIds steps ->
  links steps ns
  = steps ≫= (fun st => omap (linkOf ns st) (Types.dependencies st))
  /\ (forall st depId,
        st ∈ steps -> depId ∈ Types.dependencies st ->
        (depId ∈ stepIds steps ->
         exists l src dst,
           linkOf ns st depId = Some l /\ l ∈ links steps ns
           /\ ns !! source l = Some src /\ Types.id (step src) = depId
           /\ ns !! target l = Some dst /\ Types.id (step dst) = Types.id st)
        /\ (depId ∉ stepIds steps -> linkOf ns st depId = None))
  /\ (forall l,
        l ∈ links steps ns ->
        exists st depId src dst,
          st ∈ steps /\ depId ∈ Types.dependencies st
          /\ ns !! source l = Some src /\ Types.id (step src) = depId
          /\ ns !! target l = Some dst /\ Types.id (step dst) = Types.id st)
  /\ length (links steps ns)
     = sum_list ((fun st => length (filter (fun depId => depId ∈ stepIds steps)
                                          (Types.dependencies st))) <$> steps).
Proof.
  intros Hm. split; [apply links_bind|]. split; [|split].
  - intros st depId Hst Hd. split.
    + intros Hin. apply (linkOf_resolves steps ns st depId Hm Hst) in Hin.
      destruct Hin as [l Hl]. pose proof Hl as Hl'.
      apply linkOf_Some in Hl' as [Hs Ht].
      apply find_Some in Hs as [src [Hs [Hsi _]]].
      apply find_Some in Ht as [dst [Ht [Hti _]]].
      exists l, src, dst. repeat split; try assumption.
      apply elem_of_links. eauto.
    + intros Hnin. apply eq_None_not_Some. intros H.
      now apply (linkOf_resolves steps ns st depId Hm Hst) in H.
  - intros l H. apply elem_of_links in H as [st [depId [Hst [Hd Hl]]]].
    apply linkOf_Some in Hl as [Hs Ht].
    apply find_Some in Hs as [src [Hs [Hsi _]]].
    apply find_Some in Ht as [dst [Ht [Hti _]]].
    exists st, depId, src, dst. repeat split; assumption.
  - rewrite links_bind, length_bind_sum. f_equal.
    apply Forall_fmap_ext, Forall_forall. intros st Hst.
    rewrite length_omap_filter. f_equal. apply list_filter_iff.
    intros depId. symmetry. apply (linkOf_resolves steps ns st depId Hm Hst).
Qed.

Example links_pipeline :
  links Examples.pipeline (nodes Examples.pipeline)
  = [ {| source := 0; target := 1 |}; {| source := 1; target := 2 |};
      {| source := 2; target := 2 |} ].
Proof. vm_compute. reflexivity. Qed.

Lemma links_one_per_resolvable_dependency_witness :
  nodeIds (nodes Examples.pipeline) = stepIds Examples.pipeline
  /\ length (links Examples.pipeline (nodes Examples.pipeline)) = 3.
Proof.
  split; [reflexivity|].
  destruct (links_one_per_resolvable_dependency Examples.pipeline
              (nodes Examples.pipeline) eq_refl) as (_ & _ & _ & H).
  rewrite H. vm_compute. reflexivity.
Defined.

(** C10: no dependency is left out because it closes a cycle: every declared
    dependency whose identifier is a step identifier gives its link, whatever
    the other dependencies are.  A step that names itself gives a link from a
    node to that same node, and along any cycle of steps every dependency of
    the cycle has its link. *)
Theorem links_keep_cycles
    (steps : list Types.PipelineStep) (ns : list GraphNode) :
  nodeIds ns = stepIds steps ->
  (forall st depId,
      st ∈ steps -> depId ∈ Types.dependencies st -> depId ∈ stepIds steps ->
      exists l, linkOf ns st depId = Some l /\ l ∈ links steps ns)
  /\ (forall st,
        st ∈ steps -> Types.id st ∈ Types.dependencies st ->
        exists t n,
          find ns (Types.id st) = Some t /\ ns !! t = Some n
          /\ Types.id (step n) = Types.id st
          /\ {| source := t; target := t |} ∈ links steps ns)
  /\ (forall cyc,
        Forall (fun st => st ∈ steps) cyc ->
        (forall j a b,
            cyc !! j = Some a -> cyc !! (S j mod length cyc) = Some b ->
            Types.id b ∈ Types.dependencies a) ->
        forall j a b,
          cyc !! j = Some a -> cyc !! (S j mod length cyc) = Some b ->
          exists s t,
            find ns (Types.id b) = Some s /\ find ns (Types.id a) = Some t
            /\ {| source := s; target := t |} ∈ links steps ns).
Proof.
  intros Hm.
  assert (forall st depId,
      st ∈ steps -> depId ∈ Types.dependencies st -> depId ∈ stepIds steps ->
      exists l, linkOf ns st depId = Some l /\ l ∈ links steps ns) as Hall.
  { intros st depId Hst Hd Hin.
    apply (linkOf_resolves steps ns st depId Hm Hst) in Hin as [l Hl].
    exists l. split; [exact Hl|]. apply elem_of_links. eauto. }
  split; [exact Hall|]. split.
  - intros st Hst Hself.
    destruct (Hall st (Types.id st) Hst Hself) as [[s t] [Hl Hin]].
    { now apply list_elem_of_fmap_2. }
    apply linkOf_Some in Hl as [Hs Ht]. simpl in *.
    assert (s = t) as -> by congruence.
    apply find_Some in Hs as [n [Hn [Hid _]]]. exists t, n.
    repeat split; assumption.
  - intros cyc Hcyc Hdep j a b Ha Hb.
    pose proof (proj1 (Forall_forall _ _) Hcyc) as Hin'.
    assert (a ∈ steps) as Hast.
    { apply Hin'. eapply list_elem_of_lookup_2, Ha. }
    assert (b ∈ steps) as Hbst.
    { apply Hin'. eapply list_elem_of_lookup_2, Hb. }
    destruct (Hall a (Types.id b) Hast (Hdep j a b Ha Hb)) as [[s t] [Hl Hin]].
    { now apply list_elem_of_fmap_2. }
    apply linkOf_Some in Hl as [Hs Ht]. eauto.
Qed.

Lemma links_keep_cycles_witness :
  nodeIds (nodes Examples.pipeline) = stepIds Examples.pipeline
  /\ exists t n,
       find (nodes Examples.pipeline) "C" = Some t
       /\ nodes Examples.pipeline !! t = Some n
       /\ Types.id (step n) = "C"
       /\ {| source := t; target := t |}
          ∈ links Examples.pipeline (nodes Examples.pipeline).
Proof.
  split; [reflexivity|].
  destruct (links_keep_cycles Examples.pipeline (nodes Examples.pipeline)
              eq_refl) as (_ & H & _).
  apply (H Examples.stepC); vm_compute; set_solver.
Defined.

End GraphModelClaims.

(** ** Plain objects *)
Section ObjectFacts.
Import JsNumber JsObject.
Local Open Scope string_scope.




Lemma get_set_eq (o : t) (key : string) (pos : Position.t) :
  get (set o key pos) key = VPosition pos.
Proof.
  unfold set. destruct (decide _) as [[-> Hown]|_].
  - unfold get, inherited. simpl. rewrite Hown. reflexivity.
  - unfold get. simpl. now rewrite lookup_insert_eq.
Qed.

Lemma own_set_ne (o : t) (key key' : string) (pos : Position.t) :
  key' <> key -> own (set o key pos) !! key' = own o !! key'.
Proof.
  intros Hne. unfold set. destruct (decide _); simpl; [reflexivity|].
  now rewrite lookup_insert_ne.
Qed.

(** An assignment under a key other than ["__proto__"] changes the read of
    that key only. *)
Lemma get_set_ne (o : t) (key key' : string) (pos : Position.t) :
  key' <> key -> key <> "__proto__" ->
  get (set o key pos) key' = get o key'.
Proof.
  intros Hne Hk. unfold set.
  destruct (decide _) as [[E _]|_]; [contradiction|].
  unfold get, inherited. simpl. now rewrite lookup_insert_ne.
Qed.

(** No assignment takes a stored position away from another key. *)
Lemma get_set_ne_position (o : t) (key key' : string) (pos p : Position.t) :
  key' <> key -> get o key' = VPosition p ->
  get (set o key pos) key' = VPosition p.
Proof.
  intros Hne Hget. unfold set. destruct (decide _) as [[-> Hown]|_].
  - unfold get in *. simpl. destruct (own o !! key') as [q|]; [exact Hget|].
    unfold inherited in *. simpl.
    destruct (decide (key' = "__proto__")); [contradiction|].
    destruct (proto o) as [q|]; unfold fromObjectPrototype in *;
      repeat (destruct (decide _)); try discriminate;
      destruct (bool_decide _); discriminate.
  - unfold get, inherited in *. simpl. now rewrite lookup_insert_ne.
Qed.

Lemma set_keeps_no_own_proto (o : t) (key : string) (pos : Position.t) :
  own o !! "__proto__" = None -> own (set o key pos) !! "__proto__" = None.
Proof.
  intros H. unfold set. destruct (decide _) as [_|Hn]; simpl; [exact H|].
  destruct (decide (key = "__proto__")) as [->|Hne].
  - exfalso. apply Hn. now split.
  - now rewrite lookup_insert_ne.
Qed.

Lemma t_eq (o o' : t) : own o = own o' -> proto o = proto o' -> o = o'.
Proof. destruct o, o'. simpl. now intros -> ->. Qed.

End ObjectFacts.

(** ** Layout *)
Section Layout.
Import JsNumber PipelineGraph.

Lemma IZR_of_nat_nonneg (n : nat) : (0 <= IZR (Z.of_nat n))%R.
Proof. apply IZR_le. lia. Qed.

Lemma layerX_value (width : Z) (lay : nat) :
  layerX width lay
  = Some (100 + IZR (Z.of_nat lay) * ((IZR width - 100 * 2) / 2))%R.
Proof.
  unfold layerX, add, mul, sub, div, lift2, lit, paddingX.
  destruct (Req_dec_T 2 0) as [E|_]; [lra | reflexivity].
Qed.

Lemma layerY_value (h len : nat) (idx : Z) :
  layerY h len idx
  = Some (50 + ((IZR (Z.of_nat h) - 50 * 2) / (IZR (Z.of_nat len) + 1))
               * (IZR idx + 1))%R.
Proof.
  unfold layerY, add, mul, sub, div, lift2, lit, paddingY.
  destruct (Req_dec_T (IZR (Z.of_nat len) + 1) 0) as [E|_]; [|reflexivity].
  pose proof (IZR_of_nat_nonneg len). lra.
Qed.

Lemma elem_of_bucket (k : nat) (ns : list GraphNode) (i : nat) :
  i ∈ bucket k ns <-> exists n, ns !! i = Some n /\ layer n = k.
Proof.
  unfold bucket. rewrite list_elem_of_filter, elem_of_seq. split.
  - intros [H _]. apply fmap_Some in H as [n [Hn ->]]. eauto.
  - intros [n [Hn <-]]. split; [now rewrite Hn|].
    apply lookup_lt_Some in Hn. lia.
Qed.

Lemma NoDup_bucket (k : nat) (ns : list GraphNode) : NoDup (bucket k ns).
Proof. apply NoDup_filter, NoDup_seq. Qed.

Lemma indexOf_lookup (l : list nat) (k i : nat) :
  NoDup l -> l !! k = Some i -> indexOf i l = Z.of_nat k.
Proof.
  revert k. induction l as [|a l IH]; intros k Hnd Hk; [discriminate|].
  apply NoDup_cons in Hnd as [Ha Hnd]. destruct k as [|k]; simpl in *.
  - injection Hk as ->. now rewrite decide_True.
  - rewrite decide_False.
    + rewrite (IH k Hnd Hk).
      destruct (Z.ltb_spec (Z.of_nat k) 0); lia.
    + intros ->. apply Ha. eapply list_elem_of_lookup_2, Hk.
Qed.

Lemma indexOf_absent (l : list nat) (i : nat) : i ∉ l -> indexOf i l = (-1)%Z.
Proof.
  induction l as [|a l IH]; intros H; [reflexivity|]. simpl.
  apply not_elem_of_cons in H as [Hne H].
  rewrite decide_False by congruence. now rewrite (IH H).
Qed.

Lemma layers_lookup (ns : list GraphNode) (k : nat) :
  k <= 2 -> layers ns !! k = Some (bucket k ns).
Proof.
  intros H. destruct k as [|[|[|k]]]; [reflexivity..|lia].
Qed.

Lemma layers_lookup_None (ns : list GraphNode) (k : nat) :
  2 < k -> layers ns !! k = None.
Proof. intros H. destruct k as [|[|[|k]]]; [lia..|reflexivity]. Qed.

Lemma maxLayerSize_layers (ns : list GraphNode) :
  maxLayerSize (layers ns)
  = Nat.max (length (bucket 0 ns))
      (Nat.max (length (bucket 1 ns)) (Nat.max (length (bucket 2 ns)) 1)).
Proof. reflexivity. Qed.

Lemma height_layers (ns : list GraphNode) :
  height (layers ns)
  = Nat.max 320 (max_list (length <$> layers ns) * 70).
Proof.
  unfold height, baseHeight, perNodeHeight. rewrite maxLayerSize_layers.
  simpl. lia.
Qed.

Lemma height_ge (ns : list GraphNode) (k : nat) :
  k <= 2 -> 320 <= height (layers ns)
            /\ length (bucket k ns) * 70 <= height (layers ns).
Proof.
  intros H. unfold height, baseHeight, perNodeHeight.
  rewrite maxLayerSize_layers.
  destruct k as [|[|[|k]]]; lia.
Qed.

Lemma nodes_layer_le_2 (steps : list Types.PipelineStep) :
  Forall (fun n => layer n <= 2) (nodes steps).
Proof.
  unfold nodes. apply Forall_fmap, Forall_forall. intros s _.
  apply layerOf_le_2.
Qed.

Lemma placeNode_placed (ns0 : list GraphNode) (width : Z) (i : nat)
    (n : GraphNode) :
  layer n <= 2 ->
  placeNode (layers ns0) width (height (layers ns0)) i n
  = Some (placed ns0 width i n).
Proof.
  intros H. unfold placeNode. now rewrite (layers_lookup ns0 _ H).
Qed.

(** The placement loop completes when every layer is 0, 1 or 2. *)
Lemma placeAll_placed (ns0 : list GraphNode) (width : Z) :
  Forall (fun n => layer n <= 2) ns0 ->
  placeAll (layers ns0) width (height (layers ns0)) ns0
  = Some (imap (placed ns0 width) ns0).
Proof.
  intros H. unfold placeAll. apply mapM_Some_2.
  apply Forall2_same_length_lookup_2.
  - now rewrite !length_imap.
  - intros i [j n] m Hp Hm.
    apply list_lookup_imap_Some in Hp as [n' [Hn' E]]. injection E as -> ->.
    apply list_lookup_imap_Some in Hm as [n'' [Hn'' ->]].
    assert (n'' = n') as -> by congruence. simpl.
    apply placeNode_placed.
    eapply Forall_lookup_1 in H; [exact H | exact Hn'].
Qed.

End Layout.

(** ** One pass of the effect *)
Section Pass.
Import JsNumber PipelineGraph.

Lemma placed_lookup (ns0 : list GraphNode) (width : Z) (i : nat) :
  imap (placed ns0 width) ns0 !! i = placed ns0 width i <$> ns0 !! i.
Proof. apply list_lookup_imap. Qed.

Lemma step_restoreNode sp n : step (restoreNode sp n) = step n.
Proof. unfold restoreNode. cbv zeta. now destruct (JsObject.truthy _). Qed.

Lemma layer_restoreNode sp n : layer (restoreNode sp n) = layer n.
Proof. unfold restoreNode. cbv zeta. now destruct (JsObject.truthy _). Qed.

Lemma applySaved_lookup saved (ns : list GraphNode) (i : nat) :
  applySaved saved ns !! i
  = (fun n => match saved with
              | Some sp => restoreNode sp n
              | None => n
              end) <$> ns !! i.
Proof.
  destruct saved as [sp|]; simpl.
  - apply list_lookup_fmap.
  - now destruct (ns !! i).
Qed.

Lemma length_applySaved saved (ns : list GraphNode) :
  length (applySaved saved ns) = length ns.
Proof. destruct saved; simpl; [apply length_fmap | reflexivity]. Qed.

Lemma length_laidOut (p : Props) (d : Dom) :
  length (laidOut p d) = length (steps p).
Proof.
  unfold laidOut. rewrite length_applySaved, length_imap.
  unfold nodes. apply length_fmap.
Qed.

(** The node object [i] at the end of the layout. *)
Lemma laidOut_lookup (p : Props) (d : Dom) (i : nat) (s : Types.PipelineStep) :
  steps p !! i = Some s ->
  exists n0 n,
    nodes (steps p) !! i = Some n0
    /\ laidOut p d !! i = Some n
    /\ step n0 = s /\ step n = s
    /\ layer n0 = layerOf (Types.name s) /\ layer n = layerOf (Types.name s)
    /\ n = match savedPositions p with
           | Some sp => restoreNode sp (placed (nodes (steps p)) (resolveWidth d) i n0)
           | None => placed (nodes (steps p)) (resolveWidth d) i n0
           end.
Proof.
  intros Hs. unfold laidOut.
  rewrite applySaved_lookup, placed_lookup, nodes_lookup, Hs. simpl.
  eexists _, _. split; [reflexivity|]. split; [reflexivity|].
  destruct (savedPositions p) as [sp|]; simpl;
    rewrite ?step_restoreNode, ?layer_restoreNode; simpl; auto.
Qed.

Lemma nodeIds_laidOut (p : Props) (d : Dom) :
  nodeIds (laidOut p d) = stepIds (steps p).
Proof.
  apply list_eq. intros i. unfold stepIds.
  rewrite nodeIds_lookup, list_lookup_fmap.
  destruct (steps p !! i) as [s|] eqn:Hs.
  - destruct (laidOut_lookup p d i s Hs) as (n0 & n & _ & -> & _ & E & _).
    simpl. now rewrite E.
  - apply lookup_ge_None in Hs.
    rewrite (proj2 (lookup_ge_None _ _)); [reflexivity|].
    now rewrite length_laidOut.
Qed.

Lemma onDatum_in_range f (ns : list GraphNode) (l : Link) :
  source l < length ns -> target l < length ns ->
  exists s t, ns !! source l = Some s /\ ns !! target l = Some t
              /\ onDatum f ns l = Some (f s t).
Proof.
  intros Hs Ht. apply lookup_lt_is_Some in Hs as [s Hs].
  apply lookup_lt_is_Some in Ht as [t Ht].
  exists s, t. unfold onDatum. rewrite Hs, Ht. auto.
Qed.

(** Every path callback finds its two node objects. *)
Lemma mapM_onDatum f (ns : list GraphNode) (lks : list Link) :
  Forall (fun l => source l < length ns /\ target l < length ns) lks ->
  exists paths,
    mapM (onDatum f ns) lks = Some paths
    /\ forall j l, lks !! j = Some l ->
         exists s t, ns !! source l = Some s /\ ns !! target l = Some t
                     /\ paths !! j = Some (f s t).
Proof.
  intros H.
  destruct (mapM_is_Some_2 (onDatum f ns) lks) as [paths Hp].
  { eapply Forall_impl; [exact H|]. intros l [Hs Ht]. simpl.
    destruct (onDatum_in_range f ns l Hs Ht) as (s & t & _ & _ & ->). eauto. }
  exists paths. split; [exact Hp|]. intros j l Hl.
  apply mapM_Some_1 in Hp.
  destruct (Forall2_lookup_l _ _ _ _ _ Hp Hl) as (path & Hpath & Hd).
  eapply Forall_lookup_1 in H as [Hs Ht]; [|exact Hl].
  destruct (onDatum_in_range f ns l Hs Ht) as (s & t & Hs' & Ht' & E).
  exists s, t. repeat split; try assumption. congruence.
Qed.

(** With an svg element and at least one step, the pass runs to its end. *)
Lemma renderPass_run (p : Props) (d : Dom) (c : Component) :
  svgCurrent d = true -> steps p <> [] ->
  exists paths,
    mapM (onDatum drawLink (laidOut p d)) (links (steps p) (laidOut p d))
    = Some paths
    /\ renderPass p d c
       = Some {| svgHeight := height (layers (nodes (steps p)));
                 positionsRef := seedPositions (laidOut p d);
                 scene := Some {| sceneNodes := laidOut p d;
                                  sceneLinks := links (steps p) (laidOut p d);
                                  linkPaths := paths;
                                  nodeTransforms := positionOf <$> laidOut p d;
                                  viewTransform := zoomIdentity |} |}.
Proof.
  intros Hsvg Hne.
  destruct (mapM_onDatum drawLink (laidOut p d) (links (steps p) (laidOut p d)))
    as (paths & Hpaths & _); [apply links_in_range|].
  exists paths. split; [exact Hpaths|].
  assert ((length (steps p) =? 0) = false) as Hlen.
  { destruct (steps p); [congruence | reflexivity]. }
  unfold renderPass. rewrite Hsvg, Hlen. cbn [negb orb]. cbv zeta.
  rewrite placeAll_placed by apply nodes_layer_le_2.
  cbn [mbind option_bind]. fold (laidOut p d).
  rewrite Hpaths. reflexivity.
Qed.

(** Without an svg element, or with no step, the pass changes nothing. *)
Lemma renderPass_skip (p : Props) (d : Dom) (c : Component) :
  svgCurrent d = false \/ steps p = [] -> renderPass p d c = Some c.
Proof.
  intros [H|H]; unfold renderPass; rewrite H; [reflexivity|].
  now rewrite orb_true_r.
Qed.

End Pass.

(** ** Placement values *)
Section Placement.
Import JsNumber PipelineGraph.

(** A node object is in the bucket of its layer, at one slot. *)
Lemma bucket_slot (ns : list GraphNode) (i : nat) (n : GraphNode) :
  ns !! i = Some n ->
  exists slot, bucket (layer n) ns !! slot = Some i
               /\ indexOf i (bucket (layer n) ns) = Z.of_nat slot
               /\ slot < length (bucket (layer n) ns).
Proof.
  intros Hn.
  assert (i ∈ bucket (layer n) ns) as Hin by (apply elem_of_bucket; eauto).
  apply list_elem_of_lookup in Hin as [slot Hslot]. exists slot.
  split; [exact Hslot|]. split.
  - apply indexOf_lookup; [apply NoDup_bucket | exact Hslot].
  - eapply lookup_lt_Some, Hslot.
Qed.

(** The vertical coordinate of slot [slot] of [len]: strictly inside the
    padded canvas. *)
Lemma layerY_between (h len slot : nat) :
  100 < h -> slot < len ->
  exists py,
    layerY h len (Z.of_nat slot) = Some py
    /\ py = (50 + ((IZR (Z.of_nat h) - 100) / (IZR (Z.of_nat len) + 1))
                  * (IZR (Z.of_nat slot) + 1))%R
    /\ (50 < py < IZR (Z.of_nat h) - 50)%R.
Proof.
  intros Hh Hslot. rewrite layerY_value.
  replace (50 * 2)%R with 100%R by lra.
  eexists. split; [reflexivity|]. split; [reflexivity|].
  assert (100 < IZR (Z.of_nat h))%R as HH by (apply IZR_lt; lia).
  assert (0 <= IZR (Z.of_nat slot))%R as HS by apply IZR_of_nat_nonneg.
  assert (IZR (Z.of_nat slot) + 1 <= IZR (Z.of_nat len))%R as HN.
  { rewrite <- plus_IZR. apply IZR_le. lia. }
  set (H := IZR (Z.of_nat h)) in *. set (N := IZR (Z.of_nat len)) in *.
  set (S' := IZR (Z.of_nat slot)) in *.
  assert (0 < (H - 100) / (N + 1))%R as HD.
  { apply Rdiv_lt_0_compat; lra. }
  assert ((H - 100) / (N + 1) * (N + 1) = H - 100)%R as HE.
  { field. lra. }
  set (D := ((H - 100) / (N + 1))%R) in *. nra.
Qed.

Lemma layerX_columns (width : Z) (lay : nat) :
  exists px,
    layerX width lay = Some px
    /\ px = (100 + IZR (Z.of_nat lay) * ((IZR width - 200) / 2))%R
    /\ (lay = 0 -> px = 100%R)
    /\ (lay = 1 -> px = (IZR width / 2)%R)
    /\ (lay = 2 -> px = (IZR width - 100)%R).
Proof.
  rewrite layerX_value. replace (100 * 2)%R with 200%R by lra.
  eexists. split; [reflexivity|]. split; [reflexivity|].
  split; [intros ->; change (Z.of_nat 0) with 0%Z; lra|].
  split; [intros ->; change (Z.of_nat 1) with 1%Z; lra|].
  intros ->. change (Z.of_nat 2) with 2%Z. lra.
Qed.

(** The node object [i] after the placement loop. *)
Lemma placed_value (ns0 : list GraphNode) (width : Z) (i : nat)
    (n : GraphNode) :
  ns0 !! i = Some n -> layer n <= 2 ->
  exists slot px py,
    bucket (layer n) ns0 !! slot = Some i
    /\ x (placed ns0 width i n) = Some px
    /\ y (placed ns0 width i n) = Some py
    /\ px = (100 + IZR (Z.of_nat (layer n)) * ((IZR width - 200) / 2))%R
    /\ py = (50 + ((IZR (Z.of_nat (height (layers ns0))) - 100)
                   / (IZR (Z.of_nat (length (bucket (layer n) ns0))) + 1))
                  * (IZR (Z.of_nat slot) + 1))%R
    /\ (50 < py < IZR (Z.of_nat (height (layers ns0))) - 50)%R.
Proof.
  intros Hn Hl.
  destruct (bucket_slot ns0 i n Hn) as (slot & Hslot & Hidx & Hlt).
  destruct (layerX_columns width (layer n)) as (px & Hx & Hpx & _).
  destruct (layerY_between (height (layers ns0))
              (length (bucket (layer n) ns0)) slot) as (py & Hy & Hpy & Hb).
  { pose proof (height_ge ns0 (layer n) Hl). lia. }
  { exact Hlt. }
  exists slot, px, py. unfold placed. simpl. rewrite Hidx.
  repeat split; try assumption; apply Hb.
Qed.

End Placement.

(** ** Claims on the layout *)
Section LayoutClaims.
Import JsNumber PipelineGraph Spec.

(** C4: for every step list and every width the placement loop completes and
    gives the node of step [i] the horizontal coordinate
    [paddingX + layer * ((width - 2 * paddingX) / 2)] (the columns [100],
    [width / 2] and [width - 100]) and, when the node is at slot [slot] of the
    [N] nodes of its bucket, the vertical coordinate
    [paddingY + ((height - 2 * paddingY) / (N + 1)) * (slot + 1)], which is
    strictly between [paddingY] and [height - paddingY]; the height is the
    larger of [320] and [70] times the size of the largest bucket, and it is
    the height the pass stores. *)
Theorem default_placement_columns_and_slots
    (sts : list Types.PipelineStep) (width : Z) :
  exists ns1,
    placeAll (layers (nodes sts)) width (height (layers (nodes sts)))
             (nodes sts) = Some ns1
    /\ length ns1 = length sts
    /\ (forall i s,
          sts !! i = Some s ->
          exists n slot px py,
            ns1 !! i = Some n /\ step n = s
            /\ layer n = layerOf (Types.name s)
            /\ bucket (layer n) (nodes sts) !! slot = Some i
            /\ x n = Some px /\ y n = Some py
            /\ px = (IZR paddingX
                     + IZR (Z.of_nat (layer n))
                       * ((IZR width - 2 * IZR paddingX) / 2))%R
            /\ (layer n = 0 -> px = 100%R)
            /\ (layer n = 1 -> px = (IZR width / 2)%R)
            /\ (layer n = 2 -> px = (IZR width - 100)%R)
            /\ py = (IZR paddingY
                     + ((IZR (Z.of_nat (height (layers (nodes sts))))
                         - 2 * IZR paddingY)
                        / (IZR (Z.of_nat (length (bucket (layer n) (nodes sts))))
                           + 1))
                       * (IZR (Z.of_nat slot) + 1))%R
            /\ (IZR paddingY < py
                < IZR (Z.of_nat (height (layers (nodes sts)))) - IZR paddingY)%R)
    /\ height (layers (nodes sts))
       = Nat.max baseHeight
           (max_list (length <$> layers (nodes sts)) * perNodeHeight)
    /\ (baseHeight = 320 /\ perNodeHeight = 70
        /\ paddingX = 100%Z /\ paddingY = 50%Z)
    /\ (forall p d c,
          steps p = sts -> svgCurrent d = true -> sts <> [] ->
          exists c', renderPass p d c = Some c'
                     /\ svgHeight c' = height (layers (nodes sts))).
Proof.
  exists (imap (placed (nodes sts) width) (nodes sts)).
  split; [apply placeAll_placed, nodes_layer_le_2|].
  split; [rewrite length_imap; unfold nodes; apply length_fmap|].
  split; [|split; [apply height_layers|split; [now repeat split|]]].
  - intros i s Hs.
    assert (nodes sts !! i
            = Some {| step := s; layer := layerOf (Types.name s);
                      x := None; y := None |}) as Hn.
    { now rewrite nodes_lookup, Hs. }
    destruct (placed_value (nodes sts) width i _ Hn (layerOf_le_2 _))
      as (slot & px & py & Hslot & Hx & Hy & Hpx & Hpy & Hb).
    destruct (layerX_columns width (layerOf (Types.name s)))
      as (px' & Hx' & _ & H0 & H1 & H2).
    assert (px' = px) as ->.
    { unfold placed in Hx. simpl in Hx. congruence. }
    eexists _, slot, px, py. rewrite placed_lookup, Hn. simpl in *.
    unfold paddingX, paddingY.
    repeat split; try assumption; apply Hb.
  - intros p d c <- Hsvg Hne.
    destruct (renderPass_run p d c Hsvg Hne) as (paths & _ & ->).
    eexists. split; reflexivity.
Qed.

(** What the restore step makes of a node, by the value read under its
    identifier. *)
Lemma restoreNode_cases (sp : JsObject.t) (n : GraphNode) :
  (forall saved,
      JsObject.get sp (Types.id (step n)) = JsObject.VPosition saved ->
      restoreNode sp n
      = {| step := step n; layer := layer n;
           x := Position.x saved; y := Position.y saved |})
  /\ (JsObject.get sp (Types.id (step n)) = JsObject.VUndefined ->
      restoreNode sp n = n)
  /\ (JsObject.get sp (Types.id (step n)) = JsObject.VBuiltin ->
      restoreNode sp n
      = {| step := step n; layer := layer n; x := None; y := None |})
  /\ (forall v,
        JsObject.get sp (Types.id (step n)) = JsObject.VNumber v ->
        (JsObject.truthy (JsObject.VNumber v) = true ->
         restoreNode sp n
         = {| step := step n; layer := layer n; x := None; y := None |})
        /\ (JsObject.truthy (JsObject.VNumber v) = false ->
            restoreNode sp n = n)).
Proof.
  unfold restoreNode. cbv zeta. repeat split.
  - intros saved ->. reflexivity.
  - intros ->. reflexivity.
  - intros ->. reflexivity.
  - rewrite H. intros ->. reflexivity.
  - rewrite H. intros ->. reflexivity.
Qed.





(** C6: the identifiers of the derived nodes are the identifiers of the
    steps, in the same order: step [i] gives node [i] carrying that step, every
    node comes from the step at its index, and when no two steps share an
    identifier no two nodes do.  Every completed pass derives its nodes from
    its own step list alone, whatever the state before the pass. *)
Theorem node_ids_are_step_ids (sts : list Types.PipelineStep) :
  nodeIds (nodes sts) = stepIds sts
  /\ length (nodes sts) = length sts
  /\ (forall i s, sts !! i = Some s ->
        exists n, nodes sts !! i = Some n /\ step n = s)
  /\ (forall i n, nodes sts !! i = Some n -> sts !! i = Some (step n))
  /\ (forall ident, ident ∈ nodeIds (nodes sts) <-> ident ∈ stepIds sts)
  /\ (NoDup (stepIds sts) -> NoDup (nodeIds (nodes sts)))
  /\ (forall p d c c',
        steps p = sts -> svgCurrent d = true -> sts <> [] ->
        renderPass p d c = Some c' ->
        exists sc, scene c' = Some sc
                   /\ sceneNodes sc = laidOut p d
                   /\ length (sceneNodes sc) = length sts
                   /\ nodeIds (sceneNodes sc) = stepIds sts).
Proof.
  split; [apply nodeIds_nodes|].
  split; [unfold nodes; apply length_fmap|].
  split; [|split; [|split; [|split]]].
  - intros i s H. rewrite nodes_lookup, H. simpl. eauto.
  - intros i n H. rewrite nodes_lookup in H.
    destruct (sts !! i) as [s|]; [|discriminate].
    simpl in H. injection H as <-. reflexivity.
  - intros ident. now rewrite nodeIds_nodes.
  - now rewrite nodeIds_nodes.
  - intros p d c c' <- Hsvg Hne Hrun.
    destruct (renderPass_run p d c Hsvg Hne) as (paths & _ & E).
    rewrite E in Hrun. injection Hrun as <-. eexists. simpl.
    split; [reflexivity|]. split; [reflexivity|].
    split; [apply length_laidOut | apply nodeIds_laidOut].
Qed.












End LayoutClaims.

(** ** Paths, drag and zoom *)
Section Interaction.
Import JsNumber PipelineGraph Spec.

Lemma updateLink_drawLink (s t : GraphNode) : updateLink s t = drawLink s t.
Proof. reflexivity. Qed.

(** The path between two nodes at finite positions. *)
Lemma drawLink_nodeAt st st' lay lay' (sx sy tx ty : R) :
  horizontalControlPoints sx sy tx ty
    (drawLink (nodeAt st lay sx sy) (nodeAt st' lay' tx ty)).
Proof.
  unfold horizontalControlPoints, drawLink, nodeAt. simpl.
  unfold sqrt, div, add, sub, mul, lift2, lit.
  destruct (Rlt_dec _ 0) as [Hneg|_].
  { pose proof (Rle_0_sqr (tx - sx)). pose proof (Rle_0_sqr (ty - sy)).
    unfold Rsqr in *. lra. }
  destruct (Req_dec_T 2 0) as [E|_]; [exfalso; lra|].
  repeat split.
Qed.

Lemma constrainScale_bounds (requested : R) :
  (scaleExtent.1 <= constrainScale scaleExtent requested <= scaleExtent.2)%R.
Proof.
  unfold constrainScale, scaleExtent, Rmax, Rmin. simpl.
  repeat destruct (Rle_dec _ _); lra.
Qed.

Lemma constrainScale_inside (requested : R) :
  (scaleExtent.1 <= requested <= scaleExtent.2)%R ->
  constrainScale scaleExtent requested = requested.
Proof.
  unfold constrainScale, scaleExtent, Rmax, Rmin. simpl.
  repeat destruct (Rle_dec _ _); lra.
Qed.

(** A drag frame on a drawn node runs to its end. *)
Lemma onDrag_run (c : Component) (sc : Scene) (i : nat) (d : GraphNode)
    (ex ey : R) :
  scene c = Some sc -> sceneOk sc -> sceneNodes sc !! i = Some d ->
  exists paths,
    mapM (onDatum updateLink
            (<[i := {| step := step d; layer := layer d;
                       x := Some ex; y := Some ey |}]> (sceneNodes sc)))
         (sceneLinks sc) = Some paths
    /\ onDrag i ex ey c
       = Some {| svgHeight := svgHeight c;
                 positionsRef :=
                   JsObject.set (positionsRef c) (Types.id (step d))
                     {| Position.x := Some ex; Position.y := Some ey |};
                 scene :=
                   Some {| sceneNodes :=
                             <[i := {| step := step d; layer := layer d;
                                       x := Some ex; y := Some ey |}]>
                               (sceneNodes sc);
                           sceneLinks := sceneLinks sc;
                           linkPaths := paths;
                           nodeTransforms :=
                             <[i := {| Position.x := Some ex;
                                       Position.y := Some ey |}]>
                               (nodeTransforms sc);
                           viewTransform := viewTransform sc |} |}.
Proof.
  intros Hsc (Hlinks & _ & _) Hd.
  destruct (mapM_onDatum updateLink
              (<[i := {| step := step d; layer := layer d;
                         x := Some ex; y := Some ey |}]> (sceneNodes sc))
              (sceneLinks sc)) as (paths & Hpaths & _).
  { now rewrite length_insert. }
  exists paths. split; [exact Hpaths|].
  unfold onDrag. rewrite Hsc. cbn [mbind option_bind]. rewrite Hd.
  cbn [mbind option_bind]. cbv zeta. rewrite Hpaths. reflexivity.
Qed.

Lemma sceneOk_render (p : Props) (d : Dom) (paths : list CubicPath) :
  sceneOk {| sceneNodes := laidOut p d;
             sceneLinks := links (steps p) (laidOut p d);
             linkPaths := paths;
             nodeTransforms := positionOf <$> laidOut p d;
             viewTransform := zoomIdentity |}.
Proof.
  split; [apply links_in_range|]. split; [apply length_fmap|].
  unfold scaleExtent. simpl. lra.
Qed.

(** What the effect draws keeps its data through drag frames and zoom
    gestures. *)
Lemma Reachable_sceneOk (c : Component) :
  Reachable c -> forall sc, scene c = Some sc -> sceneOk sc.
Proof.
  induction 1 as [|p d c c' _ IH Hrun|i ex ey c c' _ IH Hrun|t c c' _ IH Hrun];
    intros sc Hsc.
  - discriminate.
  - destruct (svgCurrent d) eqn:Hsvg.
    + destruct (decide (steps p = [])) as [Hnil|Hne].
      * rewrite renderPass_skip in Hrun by auto.
        injection Hrun as <-. auto.
      * destruct (renderPass_run p d c Hsvg Hne) as (paths & _ & E).
        rewrite E in Hrun. injection Hrun as <-. simpl in Hsc.
        injection Hsc as <-. apply sceneOk_render.
    + rewrite renderPass_skip in Hrun by auto. injection Hrun as <-. auto.
  - unfold onDrag in Hrun.
    destruct (scene c) as [sc0|] eqn:Hsc0; [|discriminate].
    cbn [mbind option_bind] in Hrun.
    destruct (sceneNodes sc0 !! i) as [d|] eqn:Hd; [|discriminate].
    cbn [mbind option_bind] in Hrun. cbv zeta in Hrun.
    destruct (mapM _ (sceneLinks sc0)) as [paths|]; [|discriminate].
    cbn [mbind option_bind] in Hrun. injection Hrun as <-.
    simpl in Hsc. injection Hsc as <-.
    destruct (IH sc0 eq_refl) as (Hl & Hlen & Hk).
    split; [|split]; simpl.
    + now rewrite length_insert.
    + now rewrite !length_insert.
    + exact Hk.
  - unfold zoomOn in Hrun.
    destruct (scene c) as [sc0|] eqn:Hsc0; [|discriminate].
    cbn [mbind option_bind] in Hrun. injection Hrun as <-.
    simpl in Hsc. injection Hsc as <-.
    destruct (IH sc0 eq_refl) as (Hl & Hlen & _).
    split; [|split]; simpl; [exact Hl | exact Hlen |].
    apply constrainScale_bounds.
Qed.

End Interaction.

(** ** Claims on paths, drag and zoom *)
Section InteractionClaims.
Import JsNumber PipelineGraph Spec.

(** What a path callback leaves on each path element. *)
Lemma mapM_onDatum_lookup f (ns : list GraphNode) (lks : list Link)
    (paths : list CubicPath) :
  mapM (onDatum f ns) lks = Some paths ->
  length paths = length lks
  /\ forall j l, lks !! j = Some l ->
       exists s t, ns !! source l = Some s /\ ns !! target l = Some t
                   /\ paths !! j = Some (f s t).
Proof.
  intros H. apply mapM_Some_1 in H. split.
  - symmetry. eapply Forall2_length, H.
  - intros j l Hl.
    destruct (Forall2_lookup_l _ _ _ _ _ H Hl) as (path & Hpath & Hd).
    unfold onDatum in Hd.
    destruct (ns !! source l) as [s|]; [|discriminate].
    destruct (ns !! target l) as [t|]; [|discriminate].
    simpl in Hd. injection Hd as <-. eauto.
Qed.

(** The source draws the link from (0,0) to (3,4) with the control points
    (2.5,0) and (0.5,4): they are beside the endpoints, not above or below
    them. *)
Lemma control_points_not_vertical :
  control1 (drawLink (nodeAt Examples.stepA 0 0 0) (nodeAt Examples.stepB 1 3 4))
  = {| Position.x := Some (5 / 2)%R; Position.y := Some 0%R |}
  /\ control2 (drawLink (nodeAt Examples.stepA 0 0 0)
                        (nodeAt Examples.stepB 1 3 4))
     = {| Position.x := Some (1 / 2)%R; Position.y := Some 4%R |}
  /\ ~ verticalControlPoints 0 0 3 4
         (drawLink (nodeAt Examples.stepA 0 0 0) (nodeAt Examples.stepB 1 3 4)).
Proof.
  destruct (drawLink_nodeAt Examples.stepA Examples.stepB 0 1 0 0 3 4)
    as (_ & H1 & H2 & _).
  assert (R_sqrt.sqrt ((3 - 0) * (3 - 0) + (4 - 0) * (4 - 0)) = 5)%R as E.
  { replace ((3 - 0) * (3 - 0) + (4 - 0) * (4 - 0))%R with (5 * 5)%R by lra.
    apply sqrt_square. lra. }
  rewrite E in H1, H2. split; [|split].
  - rewrite H1. do 2 f_equal. lra.
  - rewrite H2. do 2 f_equal. lra.
  - intros (c1y & c2y & Hc1 & _). rewrite H1 in Hc1.
    injection Hc1 as Hx _. lra.
Qed.

(** C2 (amended): the path of a link starts at the source node's position and
    ends at the destination node's; its first control point is the source
    position moved right by half the distance between the two positions, its
    second the destination position moved left by as much, both at the height
    of their endpoint.  The drag-time callback computes the same path as the
    one of the first draw; a completed pass leaves on every link the path of
    the first callback at the link's two nodes, a drag frame the path of the
    second at the nodes after the move. *)
Theorem link_paths_offset_horizontally :
  (forall st st' lay lay' sx sy tx ty,
      horizontalControlPoints sx sy tx ty
        (drawLink (nodeAt st lay sx sy) (nodeAt st' lay' tx ty))
      /\ horizontalControlPoints sx sy tx ty
           (updateLink (nodeAt st lay sx sy) (nodeAt st' lay' tx ty)))
  /\ (forall s t, updateLink s t = drawLink s t)
  /\ (forall p d c,
        svgCurrent d = true -> steps p <> [] ->
        exists c' sc,
          renderPass p d c = Some c' /\ scene c' = Some sc
          /\ length (linkPaths sc) = length (sceneLinks sc)
          /\ forall j l, sceneLinks sc !! j = Some l ->
               exists s t,
                 sceneNodes sc !! source l = Some s
                 /\ sceneNodes sc !! target l = Some t
                 /\ linkPaths sc !! j = Some (drawLink s t))
  /\ (forall c sc i d ex ey,
        scene c = Some sc -> sceneOk sc -> sceneNodes sc !! i = Some d ->
        exists c' sc',
          onDrag i ex ey c = Some c' /\ scene c' = Some sc'
          /\ length (linkPaths sc') = length (sceneLinks sc')
          /\ forall j l, sceneLinks sc' !! j = Some l ->
               exists s t,
                 sceneNodes sc' !! source l = Some s
                 /\ sceneNodes sc' !! target l = Some t
                 /\ linkPaths sc' !! j = Some (updateLink s t)
                 /\ updateLink s t = drawLink s t).
Proof.
  split; [|split; [|split]].
  - intros. split; apply drawLink_nodeAt.
  - apply updateLink_drawLink.
  - intros p d c Hsvg Hne.
    destruct (renderPass_run p d c Hsvg Hne) as (paths & Hpaths & ->).
    apply mapM_onDatum_lookup in Hpaths as [Hlen Hall].
    eexists _, _. split; [reflexivity|]. split; [reflexivity|]. simpl.
    split; assumption.
  - intros c sc i d ex ey Hsc Hok Hd.
    destruct (onDrag_run c sc i d ex ey Hsc Hok Hd) as (paths & Hpaths & ->).
    apply mapM_onDatum_lookup in Hpaths as [Hlen Hall].
    eexists _, _. split; [reflexivity|]. split; [reflexivity|]. simpl.
    split; [assumption|]. intros j l Hl.
    destruct (Hall j l Hl) as (s & t & Hs & Ht & Hp). eauto 10.
Qed.

(** C7: a drag frame on node [i] of a mounted component, with the pointer at
    [(ex, ey)], runs to its end and leaves node [i] at [(ex, ey)] (the other
    nodes as they were), the group of node [i] translated to [(ex, ey)], the
    same links, every link's path recomputed from the nodes after the move
    (so a path that starts or ends at node [i] starts or ends at [(ex, ey)]),
    and the cache entry of the node's identifier equal to [(ex, ey)], which
    is what a save then hands over; the other cache entries are unchanged. *)
Theorem drag_frame_updates_node_links_and_cache
    (c : Component) (sc : Scene) (i : nat) (d : GraphNode) (ex ey : R) :
  Reachable c -> scene c = Some sc -> sceneNodes sc !! i = Some d ->
  exists c' sc',
    onDrag i ex ey c = Some c' /\ scene c' = Some sc' /\ Reachable c'
    /\ sceneNodes sc' !! i = Some (nodeAt (step d) (layer d) ex ey)
    /\ (forall j, j <> i -> sceneNodes sc' !! j = sceneNodes sc !! j)
    /\ nodeTransforms sc' !! i
       = Some {| Position.x := Some ex; Position.y := Some ey |}
    /\ sceneLinks sc' = sceneLinks sc
    /\ length (linkPaths sc') = length (sceneLinks sc)
    /\ (forall j l,
          sceneLinks sc !! j = Some l ->
          exists s t path,
            sceneNodes sc' !! source l = Some s
            /\ sceneNodes sc' !! target l = Some t
            /\ linkPaths sc' !! j = Some path /\ path = updateLink s t
            /\ (source l = i ->
                start path = {| Position.x := Some ex; Position.y := Some ey |})
            /\ (target l = i ->
                finish path
                = {| Position.x := Some ex; Position.y := Some ey |}))
    /\ JsObject.get (positionsRef c') (Types.id (step d))
       = JsObject.VPosition
           {| Position.x := Some ex; Position.y := Some ey |}
    /\ JsObject.get (onSave c') (Types.id (step d))
       = JsObject.VPosition
           {| Position.x := Some ex; Position.y := Some ey |}
    /\ (forall key, key <> Types.id (step d) ->
                    JsObject.own (positionsRef c') !! key
                    = JsObject.own (positionsRef c) !! key)
    /\ (forall key pos,
          key <> Types.id (step d) ->
          JsObject.get (positionsRef c) key = JsObject.VPosition pos ->
          JsObject.get (positionsRef c') key = JsObject.VPosition pos).
Proof.
  intros Hreach Hsc Hd.
  pose proof (Reachable_sceneOk c Hreach sc Hsc) as Hok.
  destruct (onDrag_run c sc i d ex ey Hsc Hok Hd) as (paths & Hpaths & Hrun).
  apply mapM_onDatum_lookup in Hpaths as [Hlen Hall].
  pose proof (lookup_lt_Some _ _ _ Hd) as Hi.
  destruct Hok as (_ & Hlt & _).
  eexists _, _. split; [exact Hrun|]. split; [reflexivity|].
  split; [exact (reach_drag i ex ey c _ Hreach Hrun)|]. simpl.
  split; [now apply list_lookup_insert_eq|].
  split; [intros j Hj; now apply list_lookup_insert_ne|].
  split; [apply list_lookup_insert_eq; now rewrite Hlt|].
  split; [reflexivity|]. split; [exact Hlen|].
  split; [|split; [|split; [|split]]].
  - intros j l Hl. destruct (Hall j l Hl) as (s & t & Hs & Ht & Hp).
    exists s, t, (updateLink s t).
    split; [exact Hs|]. split; [exact Ht|]. split; [exact Hp|].
    split; [reflexivity|]. split; intros E; rewrite E in *.
    + rewrite list_lookup_insert_eq in Hs by exact Hi.
      injection Hs as <-. reflexivity.
    + rewrite list_lookup_insert_eq in Ht by exact Hi.
      injection Ht as <-. reflexivity.
  - apply get_set_eq.
  - unfold onSave. simpl. apply get_set_eq.
  - intros key Hkey. now apply own_set_ne.
  - intros key pos Hkey Hget. now apply get_set_ne_position.
Qed.

Lemma drag_frame_updates_node_links_and_cache_witness :
  exists c c',
    renderPass (Examples.props None) Examples.attached mount = Some c
    /\ onDrag 0 50 60 c = Some c'
    /\ JsObject.get (positionsRef c') "A"%string
       = JsObject.VPosition
           {| Position.x := Some 50%R; Position.y := Some 60%R |}.
Proof.
  destruct (renderPass_run (Examples.props None) Examples.attached mount
              eq_refl ltac:(discriminate)) as (paths & _ & Hrun).
  destruct (laidOut_lookup (Examples.props None) Examples.attached 0
              Examples.stepA eq_refl) as (n0 & n & _ & Hn & _ & Hs & _).
  destruct (drag_frame_updates_node_links_and_cache _ _ 0 n 50 60
              (reach_render _ _ _ _ reach_mount Hrun) eq_refl Hn)
    as (c' & sc' & Hdrag & _ & _ & _ & _ & _ & _ & _ & _ & Hcache & _).
  rewrite Hs in Hcache. eexists _, c'.
  split; [exact Hrun|]. split; [exact Hdrag | exact Hcache].
Defined.

(** C9: the scale extent set on the zoom behaviour is [0.7, 1.6], with
    0.7 < 1 < 1.6.  The transform a zoom gesture applies to the scene has the
    requested scale constrained to the extent: it is within the extent for
    every request, 0.7 for the request 0.2, 1.6 for the request 5, and the
    requested scale when that is within the extent.  The scale of the view
    transform of every state of a mounted component is within the extent. *)
Theorem zoom_scale_within_extent :
  (scaleExtent = (7 / 10, 16 / 10)%R /\ scaleExtent.1 < 1 < scaleExtent.2)%R
  /\ (forall t sc,
        scaleExtent.1 <= k (viewTransform (zoomGesture t sc)) <= scaleExtent.2)%R
  /\ (forall x y sc,
        k (viewTransform (zoomGesture {| k := 2 / 10; tx := x; ty := y |} sc))
        = (7 / 10)%R
        /\ k (viewTransform (zoomGesture {| k := 5; tx := x; ty := y |} sc))
           = (16 / 10)%R)
  /\ (forall t sc,
        (scaleExtent.1 <= k t <= scaleExtent.2)%R ->
        viewTransform (zoomGesture t sc) = t)
  /\ (forall t sc,
        tx (viewTransform (zoomGesture t sc)) = tx t
        /\ ty (viewTransform (zoomGesture t sc)) = ty t)
  /\ (forall c sc,
        Reachable c -> scene c = Some sc ->
        (scaleExtent.1 <= k (viewTransform sc) <= scaleExtent.2)%R).
Proof.
  split; [|split; [|split; [|split; [|split]]]].
  - split; [reflexivity|]. unfold scaleExtent. simpl. lra.
  - intros t sc. simpl. apply constrainScale_bounds.
  - intros x y sc. simpl. unfold constrainScale, scaleExtent, Rmax, Rmin.
    simpl. split; repeat destruct (Rle_dec _ _); lra.
  - intros [kt xt yt] sc H. simpl in *.
    now rewrite constrainScale_inside.
  - intros t sc. split; reflexivity.
  - intros c sc Hreach Hsc.
    destruct (Reachable_sceneOk c Hreach sc Hsc) as (_ & _ & H). exact H.
Qed.

End InteractionClaims.

(** ** Further properties of the graph model and the layout *)
Section GraphFacts.
Import JsString JsNumber PipelineGraph Spec.

Lemma filter_seq_increasing (P : nat -> Prop) `{!forall i, Decision (P i)}
    (s n a b i j : nat) :
  filter P (seq s n) !! a = Some i -> filter P (seq s n) !! b = Some j ->
  a < b -> i < j.
Proof.
  revert s a b. induction n as [|n IH]; intros s a b Ha Hb Hab.
  - discriminate.
  - simpl in Ha, Hb. rewrite filter_cons in Ha, Hb.
    destruct (decide (P s)); [|eauto].
    destruct b as [|b]; [lia|]. simpl in Hb.
    destruct a as [|a]; simpl in Ha.
    + injection Ha as <-.
      apply list_elem_of_lookup_2, list_elem_of_filter in Hb as [_ Hb].
      apply elem_of_seq in Hb. lia.
    + apply (IH (S s) a b); [assumption..|lia].
Qed.

Lemma length_filter_three (f : nat -> option nat) (l : list nat) :
  Forall (fun i => exists k, k <= 2 /\ f i = Some k) l ->
  length (filter (fun i => f i = Some 0) l)
  + length (filter (fun i => f i = Some 1) l)
  + length (filter (fun i => f i = Some 2) l) = length l.
Proof.
  induction 1 as [|i l (k & Hk & E) _ IH]; [reflexivity|].
  rewrite !filter_cons, E.
  destruct k as [|[|[|k]]]; [| | |lia];
    repeat (destruct (decide _) as [?|?]; try congruence); simpl; lia.
Qed.

Lemma buckets_cover (sts : list Types.PipelineStep) :
  length (bucket 0 (nodes sts)) + length (bucket 1 (nodes sts))
  + length (bucket 2 (nodes sts)) = length sts.
Proof.
  unfold bucket. rewrite length_filter_three.
  - rewrite length_seq. unfold nodes. apply length_fmap.
  - apply Forall_forall. intros i Hi. apply elem_of_seq in Hi.
    destruct (lookup_lt_is_Some_2 (nodes sts) i) as [n Hn]; [lia|].
    exists (layer n). rewrite Hn. split; [|reflexivity].
    exact (Forall_lookup_1 _ _ _ _ (nodes_layer_le_2 sts) Hn).
Qed.

(** X1: the three buckets split the nodes: every node is in the bucket of its
    layer and in no other, the bucket sizes add up to the number of steps,
    and within a bucket the nodes are in step order, so the slot order of a
    column is the order of the step list. *)
Theorem buckets_partition_in_step_order (sts : list Types.PipelineStep) :
  (forall i s, sts !! i = Some s ->
     forall k, i ∈ bucket k (nodes sts) <-> k = layerOf (Types.name s))
  /\ (forall k i, i ∈ bucket k (nodes sts) -> i < length sts)
  /\ (forall k, 2 < k -> bucket k (nodes sts) = [])
  /\ length (bucket 0 (nodes sts)) + length (bucket 1 (nodes sts))
     + length (bucket 2 (nodes sts)) = length sts
  /\ (forall k, NoDup (bucket k (nodes sts)))
  /\ (forall k a b i j,
        bucket k (nodes sts) !! a = Some i ->
        bucket k (nodes sts) !! b = Some j ->
        (a < b <-> i < j)).
Proof.
  split; [|split; [|split; [|split; [|split]]]].
  - intros i s Hs k. rewrite elem_of_bucket, nodes_lookup, Hs. simpl. split.
    + intros [n [Hn <-]]. injection Hn as <-. reflexivity.
    + intros ->. eauto.
  - intros k i Hi. apply elem_of_bucket in Hi as [n [Hn _]].
    apply lookup_lt_Some in Hn. unfold nodes in Hn.
    now rewrite length_fmap in Hn.
  - intros k Hk. destruct (bucket k (nodes sts)) as [|i l] eqn:E; [reflexivity|].
    assert (i ∈ bucket k (nodes sts)) as Hi by (rewrite E; left).
    apply elem_of_bucket in Hi as [n [Hn Hl]].
    pose proof (Forall_lookup_1 _ _ _ _ (nodes_layer_le_2 sts) Hn). simpl in *.
    lia.
  - apply buckets_cover.
  - intros k. apply NoDup_bucket.
  - intros k a b i j Ha Hb. unfold bucket in *. split; intros Hlt.
    + eapply filter_seq_increasing; eassumption.
    + destruct (Nat.lt_trichotomy a b) as [H|[H|H]]; [exact H| |].
      * subst b. rewrite Ha in Hb. injection Hb as ->. lia.
      * pose proof (filter_seq_increasing _ _ _ _ _ _ _ Hb Ha H). lia.
Qed.

(** X2: a pass that finds no svg element or no step returns before it removes
    anything: the stored height, the cache and what an earlier pass drew stay
    as they are.  A pass that runs depends on the state before it in nothing:
    from any two states it ends in the same state. *)
Theorem pass_skips_or_starts_afresh (p : Props) (d : Dom) :
  (svgCurrent d = false \/ steps p = [] ->
   forall c, renderPass p d c = Some c)
  /\ (svgCurrent d = true -> steps p <> [] ->
      forall c1 c2, renderPass p d c1 = renderPass p d c2
                    /\ exists c' sc, renderPass p d c1 = Some c'
                                     /\ scene c' = Some sc
                                     /\ viewTransform sc = zoomIdentity).
Proof.
  split.
  - intros H c. now apply renderPass_skip.
  - intros Hsvg Hne c1 c2.
    destruct (renderPass_run p d c1 Hsvg Hne) as (paths & Hp & ->).
    destruct (renderPass_run p d c2 Hsvg Hne) as (paths' & Hp' & ->).
    assert (paths' = paths) as -> by congruence.
    split; [reflexivity|]. eexists _, _. repeat split.
Qed.

Lemma length_le_maxLayerSize (ls : list (list nat)) (l : list nat) :
  l ∈ ls -> length l <= maxLayerSize ls.
Proof.
  unfold maxLayerSize. induction 1 as [l ls|l l' ls _ IH]; csimpl; lia.
Qed.

Lemma layerY_step (h len a : nat) :
  exists ya yb,
    layerY h len (Z.of_nat a) = Some ya
    /\ layerY h len (Z.of_nat (S a)) = Some yb
    /\ (yb - ya
        = (IZR (Z.of_nat h) - 100) / (IZR (Z.of_nat len) + 1))%R.
Proof.
  rewrite !layerY_value. eexists _, _.
  split; [reflexivity|]. split; [reflexivity|].
  rewrite Nat2Z.inj_succ, succ_IZR.
  pose proof (IZR_of_nat_nonneg len). field. lra.
Qed.

Lemma gap_at_least (h len : nat) (c : Z) :
  (c * (Z.of_nat len + 1) + 100 <= Z.of_nat h)%Z ->
  (IZR c <= (IZR (Z.of_nat h) - 100) / (IZR (Z.of_nat len) + 1))%R.
Proof.
  intros H. apply IZR_le in H.
  rewrite plus_IZR, mult_IZR, plus_IZR in H.
  pose proof (IZR_of_nat_nonneg len).
  apply Rmult_le_reg_r with (IZR (Z.of_nat len) + 1)%R; [lra|].
  replace ((IZR (Z.of_nat h) - 100) / (IZR (Z.of_nat len) + 1)
           * (IZR (Z.of_nat len) + 1))%R
    with (IZR (Z.of_nat h) - 100)%R by (field; lra).
  lra.
Qed.

(** X3: in the default placement two neighbouring slots of a column are
    [(height - 100) / (N + 1)] apart, for a column of [N] nodes.  That is at
    least the diameter of a node circle (twice [nodeRadius]) unless the
    largest column has exactly five nodes; when it has, the nodes of a column
    of five are [250 / 6] apart, less than a diameter. *)
Theorem neighbours_in_a_column_gap
    (ls : list (list nat)) (l : list nat) (a : nat) :
  l ∈ ls -> S a < length l ->
  exists ya yb,
    layerY (height ls) (length l) (Z.of_nat a) = Some ya
    /\ layerY (height ls) (length l) (Z.of_nat (S a)) = Some yb
    /\ (yb - ya
        = (IZR (Z.of_nat (height ls)) - 100)
          / (IZR (Z.of_nat (length l)) + 1))%R
    /\ (maxLayerSize ls <> 5 -> (2 * IZR nodeRadius <= yb - ya)%R)
    /\ (length l = 5 -> maxLayerSize ls = 5 ->
        (yb - ya = 250 / 6 /\ yb - ya < 2 * IZR nodeRadius)%R).
Proof.
  intros Hin Ha. pose proof (length_le_maxLayerSize ls l Hin) as Hmax.
  destruct (layerY_step (height ls) (length l) a) as (ya & yb & Hya & Hyb & E).
  exists ya, yb. split; [exact Hya|]. split; [exact Hyb|].
  split; [exact E|]. rewrite E. unfold nodeRadius. split.
  - intros Hne. replace (2 * 22)%R with (IZR 44) by (simpl; lra).
    apply gap_at_least. unfold height, baseHeight, perNodeHeight. lia.
  - intros H5 Hm. unfold height, baseHeight, perNodeHeight.
    rewrite H5, Hm. change (Nat.max 320 (5 * 70)) with 350.
    change (Z.of_nat 350) with 350%Z. change (Z.of_nat 5) with 5%Z.
    split; lra.
Qed.

Lemma neighbours_in_a_column_gap_witness :
  exists ya yb,
    layerY 320 2 0 = Some ya /\ layerY 320 2 1 = Some yb
    /\ (2 * IZR nodeRadius <= yb - ya)%R.
Proof.
  destruct (neighbours_in_a_column_gap [[0; 1]; []; []] [0; 1] 0)
    as (ya & yb & Hya & Hyb & _ & H & _).
  { left. }
  { simpl. lia. }
  exists ya, yb. split; [exact Hya|]. split; [exact Hyb|].
  apply H. vm_compute. lia.
Defined.

(** X4: the three columns are mirror images about the middle of the width:
    the middle column is at half the width and the outer columns add up to
    the width.  They stand left to right in layer order exactly when the
    width is above 200; at width 200 they coincide, and below 200 the
    persistence column is left of the ingestion column. *)
Theorem columns_ordered_iff_wide (width : Z) :
  exists x0 x1 x2,
    layerX width 0 = Some x0 /\ layerX width 1 = Some x1
    /\ layerX width 2 = Some x2
    /\ (x0 = 100 /\ x1 = IZR width / 2 /\ x0 + x2 = IZR width)%R
    /\ ((200 < width)%Z <-> (x0 < x1 < x2)%R)
    /\ (width = 200%Z <-> (x0 = x1 /\ x1 = x2)%R)
    /\ ((width < 200)%Z <-> (x2 < x1 < x0)%R).
Proof.
  destruct (layerX_columns width 0) as (x0 & H0 & _ & E0 & _).
  destruct (layerX_columns width 1) as (x1 & H1 & _ & _ & E1 & _).
  destruct (layerX_columns width 2) as (x2 & H2 & _ & _ & _ & E2).
  specialize (E0 eq_refl). specialize (E1 eq_refl). specialize (E2 eq_refl).
  exists x0, x1, x2. subst x0 x1 x2.
  split; [exact H0|]. split; [exact H1|]. split; [exact H2|].
  split; [repeat split; lra|].
  split; [|split]; split.
  - intros H. apply IZR_lt in H. lra.
  - intros H. apply lt_IZR. lra.
  - intros ->. lra.
  - intros H. apply eq_IZR. lra.
  - intros H. apply IZR_lt in H. lra.
  - intros H. apply lt_IZR. lra.
Qed.

(** X5: the link of a step that names itself is drawn as a single point: the
    start, both control points and the end of its path are the position of
    the node. *)
Theorem self_link_path_is_a_point st lay (px py : R) :
  start (drawLink (nodeAt st lay px py) (nodeAt st lay px py))
  = {| Position.x := Some px; Position.y := Some py |}
  /\ control1 (drawLink (nodeAt st lay px py) (nodeAt st lay px py))
     = {| Position.x := Some px; Position.y := Some py |}
  /\ control2 (drawLink (nodeAt st lay px py) (nodeAt st lay px py))
     = {| Position.x := Some px; Position.y := Some py |}
  /\ finish (drawLink (nodeAt st lay px py) (nodeAt st lay px py))
     = {| Position.x := Some px; Position.y := Some py |}.
Proof.
  destruct (drawLink_nodeAt st st lay lay px py px py) as (H0 & H1 & H2 & H3).
  assert (R_sqrt.sqrt ((px - px) * (px - px) + (py - py) * (py - py)) = 0)%R
    as E.
  { replace ((px - px) * (px - px) + (py - py) * (py - py))%R with 0%R by ring.
    apply sqrt_0. }
  rewrite E in H1, H2. rewrite H0, H1, H2, H3.
  repeat split; do 2 f_equal; lra.
Qed.

(** X6: whatever the positions of its two nodes, the path of a link leaves the
    source to the right and reaches the destination from the left: the first
    control point is right of the source and the second left of the
    destination, each by exactly half the distance between the two nodes and
    at the height of its endpoint.  Each control point is at least
    as far from its endpoint as the middle of the two nodes; when the two
    nodes are at the same height and the destination is right of the source,
    both control points are the middle of the two nodes and the path is the
    straight segment. *)
Theorem link_leaves_right_and_enters_left st st' lay lay' (sx sy tx ty : R) :
  exists c1x c2x,
    control1 (drawLink (nodeAt st lay sx sy) (nodeAt st' lay' tx ty))
    = {| Position.x := Some c1x; Position.y := Some sy |}
    /\ control2 (drawLink (nodeAt st lay sx sy) (nodeAt st' lay' tx ty))
       = {| Position.x := Some c2x; Position.y := Some ty |}
    /\ (c1x - sx
        = R_sqrt.sqrt ((tx - sx) * (tx - sx) + (ty - sy) * (ty - sy)) / 2)%R
    /\ (tx - c2x
        = R_sqrt.sqrt ((tx - sx) * (tx - sx) + (ty - sy) * (ty - sy)) / 2)%R
    /\ (sx <= c1x)%R /\ (c2x <= tx)%R /\ (c1x - sx = tx - c2x)%R
    /\ ((sx + tx) / 2 <= c1x)%R /\ (c2x <= (sx + tx) / 2)%R
    /\ (sy = ty -> (sx <= tx)%R ->
        c1x = ((sx + tx) / 2)%R /\ c2x = ((sx + tx) / 2)%R).
Proof.
  destruct (drawLink_nodeAt st st' lay lay' sx sy tx ty) as (_ & H1 & H2 & _).
  set (q := ((tx - sx) * (tx - sx) + (ty - sy) * (ty - sy))%R) in *.
  assert (0 <= q)%R as Hq.
  { pose proof (Rle_0_sqr (tx - sx)). pose proof (Rle_0_sqr (ty - sy)).
    unfold Rsqr in *. unfold q. lra. }
  pose proof (sqrt_pos q) as Hpos.
  pose proof (sqrt_sqrt q Hq) as Hsq.
  assert (tx - sx <= R_sqrt.sqrt q)%R as Hdx.
  { destruct (Rle_lt_dec (tx - sx) 0) as [Hle|Hgt]; [lra|].
    apply Rnot_lt_le. intros Hlt.
    assert (R_sqrt.sqrt q * R_sqrt.sqrt q < (tx - sx) * (tx - sx))%R
      by (apply Rmult_le_0_lt_compat; lra).
    pose proof (Rle_0_sqr (ty - sy)). unfold Rsqr, q in *. lra. }
  eexists _, _. split; [exact H1|]. split; [exact H2|].
  do 7 (split; [lra|]).
  intros -> Hle.
  assert (R_sqrt.sqrt q = tx - sx)%R as E.
  { unfold q. replace ((tx - sx) * (tx - sx) + (ty - ty) * (ty - ty))%R
      with ((tx - sx) * (tx - sx))%R by ring.
    apply sqrt_square. lra. }
  rewrite E. split; lra.
Qed.

Lemma lastWith_app (ns : list GraphNode) (n : GraphNode) (key : string) :
  lastWith (ns ++ [n]) key
  = if decide (Types.id (step n) = key) then Some n else lastWith ns key.
Proof.
  unfold lastWith. rewrite reverse_app. simpl.
  destruct (decide (Types.id (step n) = key)); [reflexivity|].
  now destruct (list_find _ (reverse ns)) as [[j m]|].
Qed.

(** The last node with an identifier, by its index. *)
Lemma lastWith_spec (ns : list GraphNode) (key : string) :
  match lastWith ns key with
  | Some n =>
      exists i, ns !! i = Some n /\ Types.id (step n) = key
                /\ forall j m, ns !! j = Some m -> i < j ->
                               Types.id (step m) <> key
  | None => key ∉ nodeIds ns
  end.
Proof.
  unfold nodeIds. induction ns as [|n ns IH] using rev_ind.
  - apply not_elem_of_nil.
  - rewrite lastWith_app, fmap_app. simpl.
    destruct (decide (Types.id (step n) = key)) as [E|Hne].
    + exists (length ns).
      split; [apply list_lookup_middle; reflexivity|].
      split; [exact E|].
      intros j m Hj Hlt. apply lookup_lt_Some in Hj.
      rewrite length_app in Hj. simpl in Hj. lia.
    + destruct (lastWith ns key) as [m|].
      * destruct IH as (i & Hi & Hid & Hlast).
        exists i. split; [now apply lookup_app_l_Some|].
        split; [exact Hid|].
        intros j m' Hj Hlt. apply lookup_app_Some in Hj as [Hj|[_ Hj]].
        -- eauto.
        -- destruct (j - length ns) as [|?]; [|discriminate].
           injection Hj as <-. exact Hne.
      * rewrite not_elem_of_app. split; [exact IH|].
        rewrite list_elem_of_singleton. congruence.
Qed.

Lemma lastWith_is_Some (ns : list GraphNode) (key : string) :
  is_Some (lastWith ns key) <-> key ∈ nodeIds ns.
Proof.
  pose proof (lastWith_spec ns key) as H.
  destruct (lastWith ns key) as [n|]; split.
  - intros _. destruct H as (i & Hi & <- & _).
    unfold nodeIds. apply list_elem_of_fmap. exists n.
    split; [reflexivity|]. eapply list_elem_of_lookup_2, Hi.
  - eauto.
  - intros [? ?]. discriminate.
  - intros Hin. contradiction.
Qed.

(** With distinct identifiers, the last node with the identifier of a node is
    that node. *)
Lemma lastWith_NoDup (ns : list GraphNode) (i : nat) (n : GraphNode) :
  NoDup (nodeIds ns) -> ns !! i = Some n ->
  lastWith ns (Types.id (step n)) = Some n.
Proof.
  intros Hnd Hn. pose proof (lastWith_spec ns (Types.id (step n))) as H.
  destruct (lastWith ns (Types.id (step n))) as [m|].
  - destruct H as (j & Hj & Hid & _).
    assert (j = i) as ->.
    { eapply NoDup_lookup; [exact Hnd| |].
      - rewrite nodeIds_lookup, Hj. simpl. rewrite Hid. reflexivity.
      - now rewrite nodeIds_lookup, Hn. }
    congruence.
  - exfalso. apply H. unfold nodeIds. apply list_elem_of_fmap.
    exists n. split; [reflexivity|]. eapply list_elem_of_lookup_2, Hn.
Qed.

Lemma nodeIds_insert (ns : list GraphNode) (i : nat) (d d' : GraphNode) :
  ns !! i = Some d -> step d' = step d ->
  nodeIds (<[i := d']> ns) = nodeIds ns.
Proof.
  intros Hd Hs. unfold nodeIds. rewrite list_fmap_insert, Hs.
  apply list_insert_id. now rewrite list_lookup_fmap, Hd.
Qed.

Lemma lastWith_insert (ns : list GraphNode) (i : nat) (d d' : GraphNode)
    (key : string) :
  NoDup (nodeIds ns) -> ns !! i = Some d -> step d' = step d ->
  lastWith (<[i := d']> ns) key
  = if decide (Types.id (step d) = key) then Some d' else lastWith ns key.
Proof.
  intros Hnd Hd Hs.
  pose proof (nodeIds_insert ns i d d' Hd Hs) as Hids.
  pose proof (lookup_lt_Some _ _ _ Hd) as Hi.
  destruct (decide (Types.id (step d) = key)) as [<-|Hne].
  - rewrite <- Hs. apply (lastWith_NoDup _ i).
    + now rewrite Hids.
    + now apply list_lookup_insert_eq.
  - pose proof (lastWith_spec ns key) as H.
    destruct (lastWith ns key) as [m|].
    + destruct H as (j & Hj & Hid & _).
      assert (j <> i) as Hji by (intros ->; congruence).
      rewrite <- Hid. apply (lastWith_NoDup _ j).
      * now rewrite Hids.
      * now rewrite list_lookup_insert_ne.
    + apply eq_None_not_Some. rewrite lastWith_is_Some, Hids. exact H.
Qed.

Lemma seedPositions_app (ns : list GraphNode) (n : GraphNode) :
  seedPositions (ns ++ [n])
  = JsObject.set (seedPositions ns) (Types.id (step n)) (positionOf n).
Proof. unfold seedPositions. now rewrite foldl_app. Qed.

(** The reduction starts from [{}] and never makes an own property
    ["__proto__"]: the position of a node with that identifier becomes the
    prototype of the cache. *)
Lemma own_seed_proto (ns : list GraphNode) :
  JsObject.own (seedPositions ns) !! "__proto__"%string = None.
Proof.
  induction ns as [|n ns IH] using rev_ind; [apply lookup_empty|].
  rewrite seedPositions_app. now apply set_keeps_no_own_proto.
Qed.

Lemma own_seed (ns : list GraphNode) (key : string) :
  key <> "__proto__"%string ->
  JsObject.own (seedPositions ns) !! key = positionOf <$> lastWith ns key.
Proof.
  intros Hkey. induction ns as [|n ns IH] using rev_ind;
    [apply lookup_empty|].
  rewrite seedPositions_app, lastWith_app. unfold JsObject.set.
  destruct (decide (Types.id (step n) = "__proto__"%string
                    /\ JsObject.own (seedPositions ns) !! Types.id (step n)
                       = None)) as [[E _]|Hn]; simpl.
  - rewrite decide_False by congruence. exact IH.
  - destruct (decide (Types.id (step n) = key)) as [<-|Hne].
    + now rewrite lookup_insert_eq.
    + now rewrite lookup_insert_ne.
Qed.

Lemma proto_seed (ns : list GraphNode) :
  JsObject.proto (seedPositions ns)
  = positionOf <$> lastWith ns "__proto__"%string.
Proof.
  induction ns as [|n ns IH] using rev_ind; [reflexivity|].
  rewrite seedPositions_app, lastWith_app. unfold JsObject.set.
  destruct (decide (Types.id (step n) = "__proto__"%string
                    /\ JsObject.own (seedPositions ns) !! Types.id (step n)
                       = None)) as [[E _]|Hn]; simpl.
  - now rewrite decide_True.
  - rewrite decide_False; [exact IH|]. intros E. apply Hn.
    split; [exact E|]. rewrite E. apply own_seed_proto.
Qed.

(** A read of the seeded cache under the identifier of a node gives the
    position of the last node with that identifier. *)
Lemma get_seed (ns : list GraphNode) (key : string) (n : GraphNode) :
  lastWith ns key = Some n ->
  JsObject.get (seedPositions ns) key = JsObject.VPosition (positionOf n).
Proof.
  intros H. unfold JsObject.get.
  destruct (decide (key = "__proto__"%string)) as [->|Hne].
  - rewrite own_seed_proto. unfold JsObject.inherited.
    rewrite decide_True by reflexivity. now rewrite proto_seed, H.
  - now rewrite own_seed, H.
Qed.

(** Moving one node changes the seed as the assignment of the drag handler
    does, when the identifiers are distinct. *)
Lemma seedPositions_insert (ns : list GraphNode) (i : nat) (d d' : GraphNode) :
  NoDup (nodeIds ns) -> ns !! i = Some d -> step d' = step d ->
  seedPositions (<[i := d']> ns)
  = JsObject.set (seedPositions ns) (Types.id (step d)) (positionOf d').
Proof.
  intros Hnd Hd Hs.
  pose proof (fun key => lastWith_insert ns i d d' key Hnd Hd Hs) as Hlast.
  unfold JsObject.set.
  destruct (decide (Types.id (step d) = "__proto__"%string
                    /\ JsObject.own (seedPositions ns) !! Types.id (step d)
                       = None)) as [[E _]|Hn]; apply t_eq; simpl.
  - apply map_eq. intros key.
    destruct (decide (key = "__proto__"%string)) as [->|Hne].
    + now rewrite !own_seed_proto.
    + rewrite !own_seed by exact Hne. rewrite Hlast.
      now rewrite decide_False by congruence.
  - rewrite proto_seed, Hlast. now rewrite decide_True.
  - assert (Types.id (step d) <> "__proto__"%string) as Hd'.
    { intros E. apply Hn. split; [exact E|]. rewrite E. apply own_seed_proto. }
    apply map_eq. intros key.
    destruct (decide (key = "__proto__"%string)) as [->|Hne].
    + rewrite lookup_insert_ne by exact Hd'. now rewrite !own_seed_proto.
    + rewrite own_seed by exact Hne. rewrite Hlast.
      destruct (decide (Types.id (step d) = key)) as [<-|Hk].
      * now rewrite lookup_insert_eq.
      * rewrite lookup_insert_ne by exact Hk. now rewrite own_seed.
  - assert (Types.id (step d) <> "__proto__"%string) as Hd'.
    { intros E. apply Hn. split; [exact E|]. rewrite E. apply own_seed_proto. }
    rewrite !proto_seed, Hlast. now rewrite decide_False.
Qed.

(** A first pass over the sample pipeline. *)
Lemma sample_pass (saved : option JsObject.t) :
  exists c sc,
    renderPass (Examples.props saved) Examples.attached mount = Some c
    /\ Reachable c /\ scene c = Some sc
    /\ sceneNodes sc = laidOut (Examples.props saved) Examples.attached.
Proof.
  destruct (renderPass_run (Examples.props saved) Examples.attached mount
              eq_refl ltac:(discriminate)) as (paths & _ & Hrun).
  eexists _, _. split; [exact Hrun|].
  split; [exact (reach_render _ _ _ _ reach_mount Hrun)|].
  split; reflexivity.
Qed.

Lemma Reachable_sceneCoherent (c : Component) :
  Reachable c -> forall sc, scene c = Some sc -> sceneCoherent sc.
Proof.
  intros Hreach.
  induction Hreach
    as [|p d c c' Hreach IH Hrun|i ex ey c c' Hreach IH Hrun
        |t c c' Hreach IH Hrun]; intros sc Hsc.
  - discriminate.
  - destruct (svgCurrent d) eqn:Hsvg.
    + destruct (decide (steps p = [])) as [Hnil|Hne].
      * rewrite renderPass_skip in Hrun by auto. injection Hrun as <-. auto.
      * destruct (renderPass_run p d c Hsvg Hne) as (paths & Hp & E).
        rewrite E in Hrun. injection Hrun as <-. simpl in Hsc.
        injection Hsc as <-. split; [reflexivity | exact Hp].
    + rewrite renderPass_skip in Hrun by auto. injection Hrun as <-. auto.
  - destruct (scene c) as [sc0|] eqn:Hsc0;
      [|unfold onDrag in Hrun; rewrite Hsc0 in Hrun; discriminate].
    destruct (sceneNodes sc0 !! i) as [d|] eqn:Hd;
      [|unfold onDrag in Hrun; rewrite Hsc0 in Hrun; simpl in Hrun;
        rewrite Hd in Hrun; discriminate].
    destruct (onDrag_run c sc0 i d ex ey Hsc0
                (Reachable_sceneOk c Hreach sc0 Hsc0) Hd)
      as (paths & Hp & E).
    rewrite E in Hrun. injection Hrun as <-. simpl in Hsc.
    injection Hsc as <-. destruct (IH sc0 eq_refl) as [Ht _].
    split; simpl.
    + rewrite Ht, list_fmap_insert. reflexivity.
    + exact Hp.
  - unfold zoomOn in Hrun.
    destruct (scene c) as [sc0|] eqn:Hsc0; [|discriminate].
    simpl in Hrun. injection Hrun as <-. simpl in Hsc.
    injection Hsc as <-. exact (IH sc0 eq_refl).
Qed.

(** X7: in every state of a mounted component what is drawn agrees with the
    node objects: the group of each node is translated to the node's
    position, and the path of each link is the path the first-draw rule gives
    for the current positions of the link's two nodes, also after any number
    of drag frames. *)
Theorem drawing_agrees_with_nodes (c : Component) (sc : Scene) :
  Reachable c -> scene c = Some sc ->
  nodeTransforms sc = positionOf <$> sceneNodes sc
  /\ length (linkPaths sc) = length (sceneLinks sc)
  /\ forall j l,
       sceneLinks sc !! j = Some l ->
       exists s t,
         sceneNodes sc !! source l = Some s
         /\ sceneNodes sc !! target l = Some t
         /\ linkPaths sc !! j = Some (drawLink s t).
Proof.
  intros Hreach Hsc.
  destruct (Reachable_sceneCoherent c Hreach sc Hsc) as [Ht Hp].
  split; [exact Ht|]. now apply mapM_onDatum_lookup in Hp.
Qed.

Lemma drawing_agrees_with_nodes_witness :
  exists c sc,
    renderPass (Examples.props None) Examples.attached mount = Some c
    /\ scene c = Some sc
    /\ nodeTransforms sc = positionOf <$> sceneNodes sc.
Proof.
  destruct (sample_pass None) as (c & sc & Hrun & Hreach & Hsc & _).
  exists c, sc. split; [exact Hrun|]. split; [exact Hsc|].
  exact (proj1 (drawing_agrees_with_nodes c sc Hreach Hsc)).
Defined.

Lemma Reachable_cache_seed (c : Component) :
  Reachable c ->
  forall sc, scene c = Some sc -> NoDup (nodeIds (sceneNodes sc)) ->
             positionsRef c = seedPositions (sceneNodes sc).
Proof.
  intros Hreach.
  induction Hreach
    as [|p d c c' Hreach IH Hrun|i ex ey c c' Hreach IH Hrun
        |t c c' Hreach IH Hrun]; intros sc Hsc Hnd.
  - discriminate.
  - destruct (svgCurrent d) eqn:Hsvg.
    + destruct (decide (steps p = [])) as [Hnil|Hne].
      * rewrite renderPass_skip in Hrun by auto. injection Hrun as <-. auto.
      * destruct (renderPass_run p d c Hsvg Hne) as (paths & Hp & E).
        rewrite E in Hrun. injection Hrun as <-. simpl in Hsc.
        injection Hsc as <-. reflexivity.
    + rewrite renderPass_skip in Hrun by auto. injection Hrun as <-. auto.
  - destruct (scene c) as [sc0|] eqn:Hsc0;
      [|unfold onDrag in Hrun; rewrite Hsc0 in Hrun; discriminate].
    destruct (sceneNodes sc0 !! i) as [d|] eqn:Hd;
      [|unfold onDrag in Hrun; rewrite Hsc0 in Hrun; simpl in Hrun;
        rewrite Hd in Hrun; discriminate].
    destruct (onDrag_run c sc0 i d ex ey Hsc0
                (Reachable_sceneOk c Hreach sc0 Hsc0) Hd)
      as (paths & Hp & E).
    rewrite E in Hrun. injection Hrun as <-. simpl in Hsc.
    injection Hsc as <-. simpl in *.
    rewrite (nodeIds_insert _ i d) in Hnd by (assumption || reflexivity).
    rewrite (seedPositions_insert _ i d) by (assumption || reflexivity).
    rewrite (IH sc0 eq_refl Hnd). reflexivity.
  - unfold zoomOn in Hrun.
    destruct (scene c) as [sc0|] eqn:Hsc0; [|discriminate].
    simpl in Hrun. injection Hrun as <-. simpl in Hsc.
    injection Hsc as <-. exact (IH sc0 eq_refl Hnd).
Qed.

(** X8: when the identifiers of the drawn nodes are distinct, the position
    cache of a mounted component is in every state the seed of the current
    node objects, through passes, drag frames and zoom gestures: a read of the
    cache under the identifier of a node gives the node's current position,
    which is what a save hands over.  The own keys of the cache are the node
    identifiers other than ["__proto__"]; the position of a node with that
    identifier is held as the prototype of the cache, which is
    [Object.prototype] when no node has it. *)
Theorem cache_follows_nodes (c : Component) (sc : Scene) :
  Reachable c -> scene c = Some sc -> NoDup (nodeIds (sceneNodes sc)) ->
  positionsRef c = seedPositions (sceneNodes sc)
  /\ (forall i n, sceneNodes sc !! i = Some n ->
                  JsObject.get (onSave c) (Types.id (step n))
                  = JsObject.VPosition (positionOf n))
  /\ (forall key, is_Some (JsObject.own (positionsRef c) !! key)
                  <-> key ∈ nodeIds (sceneNodes sc)
                      /\ key <> "__proto__"%string)
  /\ (forall i n, sceneNodes sc !! i = Some n ->
                  Types.id (step n) = "__proto__"%string ->
                  JsObject.proto (positionsRef c) = Some (positionOf n))
  /\ ("__proto__"%string ∉ nodeIds (sceneNodes sc) ->
      JsObject.proto (positionsRef c) = None).
Proof.
  intros Hreach Hsc Hnd.
  pose proof (Reachable_cache_seed c Hreach sc Hsc Hnd) as E.
  split; [exact E|]. unfold onSave. rewrite E.
  split; [|split; [|split]].
  - intros i n Hn. apply get_seed. now apply (lastWith_NoDup _ i).
  - intros key. destruct (decide (key = "__proto__"%string)) as [->|Hne].
    + rewrite own_seed_proto. split; [intros [? ?]; discriminate|].
      intros [_ H]. contradiction.
    + rewrite own_seed by exact Hne. rewrite fmap_is_Some, lastWith_is_Some.
      tauto.
  - intros i n Hn Hid. rewrite proto_seed, <- Hid.
    now rewrite (lastWith_NoDup _ i n Hnd Hn).
  - intros Hnot. rewrite proto_seed.
    destruct (lastWith (sceneNodes sc) "__proto__") as [n|] eqn:Hl;
      [|reflexivity].
    exfalso. apply Hnot. apply lastWith_is_Some. eauto.
Qed.

Lemma sample_ids (saved : option JsObject.t) :
  nodeIds (laidOut (Examples.props saved) Examples.attached)
  = ["A"; "B"; "C"]%string.
Proof. rewrite nodeIds_laidOut. reflexivity. Qed.

Lemma cache_follows_nodes_witness :
  exists c sc,
    renderPass (Examples.props None) Examples.attached mount = Some c
    /\ scene c = Some sc
    /\ positionsRef c = seedPositions (sceneNodes sc).
Proof.
  destruct (sample_pass None) as (c & sc & Hrun & Hreach & Hsc & Hns).
  exists c, sc. split; [exact Hrun|]. split; [exact Hsc|].
  apply (cache_follows_nodes c sc Hreach Hsc).
  rewrite Hns, sample_ids. apply (bool_decide_unpack _). vm_compute. exact I.
Defined.

(** X9: when several steps share an identifier, a completed pass attaches
    every link to the first node with the identifier (no link starts or ends
    at a later one), while a read of the cache under that identifier gives the
    position of the last node with it.  The own keys of the cache are the
    step identifiers other than ["__proto__"]; the last step with that
    identifier, if there is one, gives the prototype of the cache. *)
Theorem shared_identifier_first_linked_last_cached
    (p : Props) (d : Dom) (c : Component) :
  svgCurrent d = true -> steps p <> [] ->
  exists c' sc,
    renderPass p d c = Some c' /\ scene c' = Some sc
    /\ (forall l j s m,
          l ∈ sceneLinks sc -> sceneNodes sc !! j = Some m ->
          (sceneNodes sc !! source l = Some s -> j < source l ->
           Types.id (step m) <> Types.id (step s))
          /\ (sceneNodes sc !! target l = Some s -> j < target l ->
              Types.id (step m) <> Types.id (step s)))
    /\ (forall key,
          key ∈ stepIds (steps p) ->
          exists i n,
            sceneNodes sc !! i = Some n /\ Types.id (step n) = key
            /\ (forall j m, sceneNodes sc !! j = Some m -> i < j ->
                            Types.id (step m) <> key)
            /\ JsObject.get (positionsRef c') key
               = JsObject.VPosition (positionOf n)
            /\ (key <> "__proto__"%string ->
                JsObject.own (positionsRef c') !! key = Some (positionOf n))
            /\ (key = "__proto__"%string ->
                JsObject.proto (positionsRef c') = Some (positionOf n)))
    /\ (forall key, is_Some (JsObject.own (positionsRef c') !! key)
                    <-> key ∈ stepIds (steps p)
                        /\ key <> "__proto__"%string)
    /\ ("__proto__"%string ∉ stepIds (steps p) ->
        JsObject.proto (positionsRef c') = None).
Proof.
  intros Hsvg Hne.
  destruct (renderPass_run p d c Hsvg Hne) as (paths & _ & ->).
  eexists _, _. split; [reflexivity|]. split; [reflexivity|]. simpl.
  split; [|split; [|split]].
  - intros l j s m Hl Hm.
    apply elem_of_links in Hl as (st & depId & _ & _ & Hl).
    apply linkOf_Some in Hl as [Hs Ht].
    apply find_Some in Hs as (s' & Hs' & Hsid & Hsfirst).
    apply find_Some in Ht as (t' & Ht' & Htid & Htfirst).
    split; intros Hs0 Hlt.
    + assert (s = s') as -> by congruence. rewrite Hsid. eauto.
    + assert (s = t') as -> by congruence. rewrite Htid. eauto.
  - intros key Hkey. rewrite <- (nodeIds_laidOut p d) in Hkey.
    apply lastWith_is_Some in Hkey as [n Hn].
    pose proof (lastWith_spec (laidOut p d) key) as H. rewrite Hn in H.
    destruct H as (i & Hi & Hid & Hlast). exists i, n.
    split; [exact Hi|]. split; [exact Hid|]. split; [exact Hlast|].
    split; [now apply get_seed|]. split.
    + intros Hk. now rewrite own_seed, Hn.
    + intros ->. now rewrite proto_seed, Hn.
  - intros key. rewrite <- (nodeIds_laidOut p d).
    destruct (decide (key = "__proto__"%string)) as [->|Hk].
    + rewrite own_seed_proto. split; [intros [? ?]; discriminate|].
      intros [_ H]. contradiction.
    + rewrite own_seed by exact Hk. rewrite fmap_is_Some, lastWith_is_Some.
      tauto.
  - intros Hnot. rewrite proto_seed.
    destruct (lastWith (laidOut p d) "__proto__") as [n|] eqn:Hl;
      [|reflexivity].
    exfalso. apply Hnot. rewrite <- (nodeIds_laidOut p d).
    apply lastWith_is_Some. eauto.
Qed.

(** Two steps share the identifier [A], the second one depends on it, and a
    third step has the identifier [__proto__]: the one link goes from the
    first node to the first node, the cache gives under [A] the position of
    the second node, and it has no own key [__proto__]. *)
Lemma shared_identifier_first_linked_last_cached_witness :
  exists c' sc n,
    renderPass Examples.propsTwins Examples.attached mount = Some c'
    /\ scene c' = Some sc
    /\ sceneLinks sc = [ {| source := 0; target := 0 |} ]
    /\ sceneNodes sc !! 1 = Some n
    /\ JsObject.get (positionsRef c') "A"%string
       = JsObject.VPosition (positionOf n)
    /\ ~ is_Some (JsObject.own (positionsRef c') !! "__proto__"%string).
Proof.
  destruct (shared_identifier_first_linked_last_cached
              Examples.propsTwins Examples.attached mount eq_refl
              ltac:(discriminate))
    as (c' & sc & Hrun & Hsc & _ & Hlast & Hdom & _).
  destruct (renderPass_run Examples.propsTwins Examples.attached mount
              eq_refl ltac:(discriminate)) as (paths & _ & Hrun').
  rewrite Hrun' in Hrun. injection Hrun as <-. simpl in Hsc.
  injection Hsc as <-. cbn [sceneNodes sceneLinks positionsRef] in *.
  destruct (Hlast "A"%string) as (i & n & Hi & Hid & Hlater & Hget & _).
  { apply (bool_decide_unpack _). vm_compute. exact I. }
  destruct (laidOut_lookup Examples.propsTwins Examples.attached 1
              Examples.twinA2 eq_refl) as (n0 & n1 & _ & Hn1 & _ & Hs1 & _).
  assert (i = 1) as ->.
  { destruct (Nat.lt_trichotomy i 1) as [Hlt|[->|Hgt]]; [|reflexivity|].
    - exfalso. apply (Hlater 1 n1 Hn1 Hlt). now rewrite Hs1.
    - exfalso. destruct i as [|[|[|i]]]; try lia.
      + destruct (laidOut_lookup Examples.propsTwins Examples.attached 2
                    Examples.stepP eq_refl)
          as (m0 & m1 & _ & Hm1 & _ & Hsm & _).
        assert (n = m1) as -> by congruence. rewrite Hsm in Hid.
        discriminate.
      + apply lookup_lt_Some in Hi. rewrite length_laidOut in Hi.
        simpl in Hi. lia. }
  eexists _, _, n. split; [exact Hrun'|]. split; [reflexivity|]. simpl.
  split.
  { rewrite (links_ids _ _ (nodes Examples.twins))
      by (now rewrite nodeIds_laidOut, nodeIds_nodes).
    vm_compute. reflexivity. }
  split; [exact Hi|]. split; [exact Hget|].
  rewrite Hdom. intros [_ H]. now apply H.
Defined.

Lemma Interacts_Reachable (c c' : Component) :
  Reachable c -> Interacts c c' -> Reachable c'.
Proof.
  intros Hreach. induction 1; eauto using Reachable.
Qed.

Lemma list_fmap_insert_same {A B} (f : A -> B) (l : list A) (i : nat)
    (a a' : A) :
  l !! i = Some a -> f a' = f a -> f <$> <[i := a']> l = f <$> l.
Proof.
  intros Ha E. rewrite list_fmap_insert, E.
  apply list_insert_id. now rewrite list_lookup_fmap, Ha.
Qed.

(** Drag frames and zoom gestures keep the steps and layers of the nodes,
    the links and the stored height, and finite positions stay finite. *)
Lemma Interacts_structure (c c' : Component) :
  Interacts c c' ->
  forall sc, scene c = Some sc ->
    exists sc',
      scene c' = Some sc'
      /\ step <$> sceneNodes sc' = step <$> sceneNodes sc
      /\ layer <$> sceneNodes sc' = layer <$> sceneNodes sc
      /\ sceneLinks sc' = sceneLinks sc
      /\ svgHeight c' = svgHeight c
      /\ (Forall finiteNode (sceneNodes sc) ->
          Forall finiteNode (sceneNodes sc')).
Proof.
  induction 1 as [c|i ex ey c c' c'' _ IH Hrun|t c c' c'' _ IH Hrun];
    intros sc Hsc.
  - exists sc. repeat split; auto.
  - destruct (IH sc Hsc) as (sc' & Hsc' & Hst & Hl & Hlk & Hh & Hfin).
    unfold onDrag in Hrun. rewrite Hsc' in Hrun. simpl in Hrun.
    destruct (sceneNodes sc' !! i) as [d|] eqn:Hd; [|discriminate].
    simpl in Hrun. destruct (mapM _ (sceneLinks sc')) as [paths|];
      [|discriminate].
    simpl in Hrun. injection Hrun as <-. eexists. simpl.
    split; [reflexivity|].
    split; [rewrite <- Hst; now apply (list_fmap_insert_same step _ i d)|].
    split; [rewrite <- Hl; now apply (list_fmap_insert_same layer _ i d)|].
    split; [exact Hlk|]. split; [exact Hh|].
    intros H. apply Forall_insert; [auto|].
    split; simpl; unfold finite; eauto.
  - destruct (IH sc Hsc) as (sc' & Hsc' & Hst & Hl & Hlk & Hh & Hfin).
    unfold zoomOn in Hrun. rewrite Hsc' in Hrun. simpl in Hrun.
    injection Hrun as <-. eexists. simpl.
    split; [reflexivity|]. repeat split; assumption.
Qed.

(** X10: drag frames and zoom gestures, in any number and order, never change
    which step and which layer a node has, nor the links, nor the stored
    height; they keep every node at a finite position when the pass left it at
    one; and the scale of the view stays within the extent. *)
Theorem interaction_keeps_the_graph (c c' : Component) (sc : Scene) :
  Reachable c -> Interacts c c' -> scene c = Some sc ->
  exists sc',
    scene c' = Some sc'
    /\ step <$> sceneNodes sc' = step <$> sceneNodes sc
    /\ layer <$> sceneNodes sc' = layer <$> sceneNodes sc
    /\ nodeIds (sceneNodes sc') = nodeIds (sceneNodes sc)
    /\ sceneLinks sc' = sceneLinks sc
    /\ svgHeight c' = svgHeight c
    /\ (Forall finiteNode (sceneNodes sc) ->
        Forall finiteNode (sceneNodes sc'))
    /\ (scaleExtent.1 <= k (viewTransform sc') <= scaleExtent.2)%R.
Proof.
  intros Hreach Hint Hsc.
  destruct (Interacts_structure c c' Hint sc Hsc)
    as (sc' & Hsc' & Hst & Hl & Hlk & Hh & Hfin).
  exists sc'. split; [exact Hsc'|]. split; [exact Hst|]. split; [exact Hl|].
  split.
  { unfold nodeIds.
    change (fun n => Types.id (step n)) with (Types.id ∘ step).
    rewrite !list_fmap_compose. now rewrite Hst. }
  split; [exact Hlk|]. split; [exact Hh|]. split; [exact Hfin|].
  pose proof (Interacts_Reachable c c' Hreach Hint) as Hreach'.
  destruct (Reachable_sceneOk c' Hreach' sc' Hsc') as (_ & _ & Hk). exact Hk.
Qed.

Lemma interaction_keeps_the_graph_witness :
  exists c c' sc',
    renderPass (Examples.props None) Examples.attached mount = Some c
    /\ onDrag 1 5 6 c = Some c'
    /\ scene c' = Some sc'
    /\ nodeIds (sceneNodes sc') = ["A"; "B"; "C"]%string.
Proof.
  destruct (sample_pass None) as (c & sc & Hrun & Hreach & Hsc & Hns).
  destruct (laidOut_lookup (Examples.props None) Examples.attached 1
              Examples.stepB eq_refl) as (n0 & n & _ & Hn & _).
  rewrite <- Hns in Hn.
  destruct (onDrag_run c sc 1 n 5 6 Hsc (Reachable_sceneOk c Hreach sc Hsc) Hn)
    as (paths & _ & Hdrag).
  destruct (interaction_keeps_the_graph c _ sc Hreach
              (interacts_drag 1 5 6 c c _ (interacts_refl c) Hdrag) Hsc)
    as (sc' & Hsc' & _ & _ & Hids & _).
  eexists c, _, sc'. split; [exact Hrun|]. split; [exact Hdrag|].
  split; [exact Hsc'|]. rewrite Hids, Hns. apply sample_ids.
Defined.

Lemma step_laidOut (p : Props) (d : Dom) : step <$> laidOut p d = steps p.
Proof.
  apply list_eq. intros i. rewrite list_lookup_fmap.
  destruct (steps p !! i) as [s|] eqn:Hs.
  - destruct (laidOut_lookup p d i s Hs) as (n0 & n & _ & -> & _ & E & _).
    simpl. now rewrite E.
  - apply lookup_ge_None in Hs.
    rewrite (proj2 (lookup_ge_None _ _)); [reflexivity|].
    now rewrite length_laidOut.
Qed.

Lemma layer_laidOut (p : Props) (d : Dom) :
  Forall (fun n => layer n = layerOf (Types.name (step n))) (laidOut p d).
Proof.
  apply Forall_lookup. intros i n Hn.
  destruct (steps p !! i) as [s|] eqn:Hs.
  - destruct (laidOut_lookup p d i s Hs)
      as (n0 & n' & _ & Hn' & _ & E & _ & El & _).
    assert (n' = n) as -> by congruence. now rewrite El, E.
  - apply lookup_ge_None in Hs. apply lookup_lt_Some in Hn.
    rewrite length_laidOut in Hn. lia.
Qed.

(** The layout with the seed of [ns] as snapshot gives back [ns]. *)
Lemma laidOut_seed (p : Props) (d : Dom) (ns : list GraphNode) :
  NoDup (stepIds (steps p)) ->
  step <$> ns = steps p ->
  Forall (fun n => layer n = layerOf (Types.name (step n))) ns ->
  savedPositions p = Some (seedPositions ns) ->
  laidOut p d = ns.
Proof.
  intros Hnd Hst Hlay Hsaved.
  assert (nodeIds ns = stepIds (steps p)) as Hids.
  { unfold nodeIds, stepIds. rewrite <- Hst, <- list_fmap_compose.
    reflexivity. }
  apply list_eq. intros i.
  destruct (steps p !! i) as [s|] eqn:Hs.
  - destruct (laidOut_lookup p d i s Hs)
      as (n0 & n & _ & -> & Hs0 & _ & Hl0 & _ & ->).
    rewrite Hsaved.
    assert (exists n2, ns !! i = Some n2 /\ step n2 = s) as (n2 & Hn2 & Hs2).
    { rewrite <- Hst, list_lookup_fmap in Hs.
      apply fmap_Some in Hs as (n2 & Hn2 & ->). eauto. }
    rewrite Hn2. f_equal.
    destruct (restoreNode_cases (seedPositions ns)
                (placed (nodes (steps p)) (resolveWidth d) i n0))
      as (Hpos & _).
    rewrite (Hpos (positionOf n2)).
    2:{ simpl. rewrite Hs0, <- Hs2. apply get_seed.
        apply (lastWith_NoDup _ i); [now rewrite Hids | exact Hn2]. }
    pose proof (Forall_lookup_1 _ _ _ _ Hlay Hn2) as Hl2. simpl in Hl2.
    simpl. rewrite Hs0, Hl0, <- Hs2, <- Hl2. now destruct n2.
  - apply lookup_ge_None in Hs.
    rewrite (proj2 (lookup_ge_None _ _)) by now rewrite length_laidOut.
    symmetry. apply lookup_ge_None.
    rewrite <- (length_fmap step), Hst. exact Hs.
Qed.

(** X11: saving and restoring a layout is faithful.  After a pass over steps
    with distinct identifiers and any drag frames and zoom gestures, a pass
    given the same steps and the saved cache as snapshot draws every node
    where it was, with the same links and paths, whatever the width of the
    container then and whatever the state it starts from; the cache after it
    is the saved one.  The view transform is not restored: it is the
    identity. *)
Theorem saved_layout_restores_positions
    (p : Props) (d d' : Dom) (active' : option string)
    (c0 c1 c2 : Component) :
  NoDup (stepIds (steps p)) -> steps p <> [] ->
  svgCurrent d = true -> svgCurrent d' = true ->
  Reachable c0 -> renderPass p d c0 = Some c1 -> Interacts c1 c2 ->
  exists sc2 c3 sc3,
    scene c2 = Some sc2
    /\ (forall c,
          renderPass {| steps := steps p; activeStepId := active';
                        savedPositions := Some (onSave c2) |} d' c = Some c3)
    /\ scene c3 = Some sc3
    /\ sceneNodes sc3 = sceneNodes sc2
    /\ sceneLinks sc3 = sceneLinks sc2
    /\ linkPaths sc3 = linkPaths sc2
    /\ nodeTransforms sc3 = nodeTransforms sc2
    /\ svgHeight c3 = svgHeight c2
    /\ onSave c3 = onSave c2
    /\ viewTransform sc3 = zoomIdentity.
Proof.
  intros Hnd Hne Hsvg Hsvg' Hreach0 Hrun1 Hint.
  pose proof (reach_render _ _ _ _ Hreach0 Hrun1) as Hreach1.
  pose proof (Interacts_Reachable _ _ Hreach1 Hint) as Hreach2.
  destruct (renderPass_run p d c0 Hsvg Hne) as (paths1 & _ & E1).
  rewrite E1 in Hrun1. injection Hrun1 as <-.
  destruct (Interacts_structure _ _ Hint _ eq_refl)
    as (sc2 & Hsc2 & Hst & Hl & Hlk & Hh & _).
  simpl in Hst, Hl, Hlk, Hh. rewrite step_laidOut in Hst.
  assert (nodeIds (sceneNodes sc2) = stepIds (steps p)) as Hids.
  { unfold nodeIds, stepIds. rewrite <- Hst, <- list_fmap_compose.
    reflexivity. }
  assert (Forall (fun n => layer n = layerOf (Types.name (step n)))
                 (sceneNodes sc2)) as Hlay.
  { apply Forall_lookup. intros i n Hn.
    assert (layer <$> laidOut p d !! i = Some (layer n)) as H1.
    { now rewrite <- list_lookup_fmap, <- Hl, list_lookup_fmap, Hn. }
    assert (step <$> laidOut p d !! i = Some (step n)) as H2.
    { now rewrite <- list_lookup_fmap, step_laidOut, <- Hst,
        list_lookup_fmap, Hn. }
    destruct (laidOut p d !! i) as [n1|] eqn:Hn1; [|discriminate].
    simpl in H1, H2. injection H1 as <-. injection H2 as <-.
    exact (Forall_lookup_1 _ _ _ _ (layer_laidOut p d) Hn1). }
  pose proof (Reachable_cache_seed _ Hreach2 sc2 Hsc2) as Hcache.
  rewrite Hids in Hcache. specialize (Hcache Hnd).
  destruct (Reachable_sceneCoherent _ Hreach2 sc2 Hsc2) as [Htr Hpaths].
  set (p' := {| steps := steps p; activeStepId := active';
                savedPositions := Some (onSave c2) |}).
  assert (laidOut p' d' = sceneNodes sc2) as Hlaid.
  { apply laidOut_seed; try assumption. unfold p', onSave. simpl.
    now rewrite Hcache. }
  assert (links (steps p') (laidOut p' d') = sceneLinks sc2) as Hlinks.
  { rewrite Hlaid, Hlk. apply links_ids.
    now rewrite Hids, nodeIds_laidOut. }
  exists sc2.
  destruct (renderPass_run p' d' mount Hsvg' Hne) as (paths3 & Hp3 & _).
  eexists _, _. split; [exact Hsc2|]. split.
  { intros c. destruct (renderPass_run p' d' c Hsvg' Hne) as (paths & Hp & ->).
    assert (paths = paths3) as -> by congruence. reflexivity. }
  simpl. split; [reflexivity|]. split; [exact Hlaid|].
  split; [exact Hlinks|]. split.
  { rewrite Hlinks, Hlaid in Hp3. simpl. congruence. }
  split; [simpl; now rewrite Hlaid, Htr|]. split; [simpl; now rewrite Hh|].
  split; [unfold onSave; simpl; now rewrite Hlaid, Hcache | reflexivity].
Qed.

Lemma saved_layout_restores_positions_witness :
  exists c1 sc1 c3 sc3,
    renderPass (Examples.props None) Examples.attached mount = Some c1
    /\ scene c1 = Some sc1
    /\ renderPass {| steps := Examples.pipeline; activeStepId := Some "B"%string;
                     savedPositions := Some (onSave c1) |}
                  {| svgCurrent := true; clientWidth := None |} mount
       = Some c3
    /\ scene c3 = Some sc3
    /\ sceneNodes sc3 = sceneNodes sc1.
Proof.
  destruct (sample_pass None) as (c1 & sc1 & Hrun & _ & Hsc & _).
  destruct (saved_layout_restores_positions (Examples.props None)
              Examples.attached {| svgCurrent := true; clientWidth := None |}
              (Some "B"%string) mount c1 c1)
    as (sc2 & c3 & sc3 & Hsc2 & Hrun3 & Hsc3 & Hns & _).
  - apply (bool_decide_unpack _). vm_compute. exact I.
  - discriminate.
  - reflexivity.
  - reflexivity.
  - exact reach_mount.
  - exact Hrun.
  - apply interacts_refl.
  - exists c1, sc1, c3, sc3. split; [exact Hrun|]. split; [exact Hsc|].
    split; [apply Hrun3|]. split; [exact Hsc3|]. congruence.
Defined.

Lemma length_append (s1 s2 : string) :
  String.length (s1 +:+ s2) = String.length s1 + String.length s2.
Proof. induction s1 as [|c s1 IH]; simpl; [reflexivity | now rewrite IH]. Qed.

Lemma length_substring_0 (k : nat) (s : string) :
  String.length (String.substring 0 k s) = Nat.min k (String.length s).
Proof.
  revert s. induction k as [|k IH]; intros [|c s]; simpl; try reflexivity.
  now rewrite IH.
Qed.

Lemma substring_0_prefix (k : nat) (s : string) :
  exists rest, s = String.substring 0 k s +:+ rest.
Proof.
  revert s. induction k as [|k IH]; intros [|c s]; simpl.
  - now exists EmptyString.
  - now exists (String c s).
  - now exists EmptyString.
  - destruct (IH s) as [rest E]. exists rest.
    change (String c s = String c (String.substring 0 k s +:+ rest)).
    now f_equal.
Qed.

(** The text [name.length > limit ? name.substring(0, keep) + '...' : name]
    of a caption. *)
Lemma truncated_caption (limit keep : nat) (nm : string) :
  keep + 3 <= limit ->
  String.length (if limit <? String.length nm
                 then JsString.substring nm 0 keep +:+ "..." else nm)
  <= limit
  /\ (String.length nm <= limit ->
      (if limit <? String.length nm
       then JsString.substring nm 0 keep +:+ "..." else nm) = nm)
  /\ (limit < String.length nm ->
      exists head rest,
        String.length head = keep /\ nm = head +:+ rest
        /\ (if limit <? String.length nm
            then JsString.substring nm 0 keep +:+ "..." else nm)
           = head +:+ "...").
Proof.
  intros Hk.
  destruct (Nat.ltb_spec limit (String.length nm)) as [H|H].
  - assert (JsString.substring nm 0 keep = String.substring 0 keep nm) as E.
    { unfold JsString.substring. now rewrite Nat.min_0_l, Nat.max_0_l,
        Nat.sub_0_r. }
    assert (String.length (JsString.substring nm 0 keep) = keep) as Hlen.
    { rewrite E, length_substring_0. lia. }
    split; [rewrite length_append, Hlen; simpl; lia|].
    split; [lia|]. intros _.
    destruct (substring_0_prefix keep nm) as [rest Hrest].
    exists (JsString.substring nm 0 keep), rest.
    split; [exact Hlen|]. split; [now rewrite E | reflexivity].
  - split; [exact H|]. split; [reflexivity | lia].
Qed.

(** X12: the caption under a node is never longer than 16 characters: a name
    of at most 16 characters is shown whole, a longer one as its first 13
    characters followed by three dots.  In the variant with a fixed height
    the limit is 18 and a longer name keeps its first 15 characters. *)
Theorem caption_fits_sixteen (n : GraphNode) :
  (String.length (caption n) <= 16
   /\ (String.length (Types.name (step n)) <= 16 ->
       caption n = Types.name (step n))
   /\ (16 < String.length (Types.name (step n)) ->
       exists head rest,
         String.length head = 13
         /\ Types.name (step n) = head +:+ rest
         /\ caption n = head +:+ "..."))
  /\ (String.length (SimpleGraph.caption n) <= 18
      /\ (String.length (Types.name (step n)) <= 18 ->
          SimpleGraph.caption n = Types.name (step n))
      /\ (18 < String.length (Types.name (step n)) ->
          exists head rest,
            String.length head = 15
            /\ Types.name (step n) = head +:+ rest
            /\ SimpleGraph.caption n = head +:+ "...")).
Proof.
  split.
  - apply (truncated_caption 16 13). lia.
  - apply (truncated_caption 18 15). lia.
Qed.

Lemma isActive_true (active : option string) (n : GraphNode) :
  isActive active n = true <-> active = Some (Types.id (step n)).
Proof. unfold isActive. apply bool_decide_eq_true. Qed.

Lemma elem_of_glowGroups (active : option string) (ns : list GraphNode)
    (i : nat) :
  i ∈ glowGroups active ns
  <-> exists n, ns !! i = Some n /\ active = Some (Types.id (step n)).
Proof.
  unfold glowGroups. rewrite list_elem_of_filter, elem_of_seq. split.
  - intros [H _]. apply fmap_Some in H as (n & Hn & E).
    exists n. split; [exact Hn|]. now apply isActive_true.
  - intros (n & Hn & E). split.
    + rewrite Hn. simpl. f_equal. now apply isActive_true.
    + apply lookup_lt_Some in Hn. lia.
Qed.

(** X13: what a completed pass highlights.  The nodes that get the glow are
    the nodes of the steps whose identifier is the active one.  A link is
    drawn in the active colour exactly when the step that declares the
    dependency has the active identifier, so the highlighted links are the
    ones that arrive at the active step; the links that leave it are not
    highlighted unless their other end is active too.  With no active
    identifier, or one that no step has, nothing is highlighted; with distinct
    identifiers at most one node glows. *)
Theorem active_step_highlights (p : Props) (d : Dom) (c : Component) :
  svgCurrent d = true -> steps p <> [] ->
  exists c' sc,
    renderPass p d c = Some c' /\ scene c' = Some sc
    /\ (forall i,
          i ∈ glowGroups (activeStepId p) (sceneNodes sc)
          <-> exists s, steps p !! i = Some s
                        /\ activeStepId p = Some (Types.id s))
    /\ (forall l st depId,
          st ∈ steps p -> depId ∈ Types.dependencies st ->
          linkOf (sceneNodes sc) st depId = Some l ->
          l ∈ sceneLinks sc
          /\ (activeStepId p = Some (Types.id st) ->
              linkStroke (activeStepId p) (sceneNodes sc) l = Some linkActive)
          /\ (activeStepId p <> Some (Types.id st) ->
              linkStroke (activeStepId p) (sceneNodes sc) l
              = Some linkDefault))
    /\ ((forall s, s ∈ steps p -> activeStepId p <> Some (Types.id s)) ->
        glowGroups (activeStepId p) (sceneNodes sc) = []
        /\ forall l, l ∈ sceneLinks sc ->
             linkStroke (activeStepId p) (sceneNodes sc) l = Some linkDefault)
    /\ (NoDup (stepIds (steps p)) ->
        length (glowGroups (activeStepId p) (sceneNodes sc)) <= 1).
Proof.
  intros Hsvg Hne.
  destruct (renderPass_run p d c Hsvg Hne) as (paths & _ & ->).
  eexists _, _. split; [reflexivity|]. split; [reflexivity|]. simpl.
  assert (forall i, i ∈ glowGroups (activeStepId p) (laidOut p d)
            <-> exists s, steps p !! i = Some s
                          /\ activeStepId p = Some (Types.id s)) as Hglow.
  { intros i. rewrite elem_of_glowGroups. split.
    - intros (n & Hn & E). exists (step n). split; [|exact E].
      now rewrite <- (step_laidOut p d), list_lookup_fmap, Hn.
    - intros (s & Hs & E).
      destruct (laidOut_lookup p d i s Hs) as (n0 & n & _ & Hn & _ & Hsn & _).
      exists n. split; [exact Hn|]. now rewrite Hsn. }
  assert (forall l st depId,
            linkOf (laidOut p d) st depId = Some l ->
            linkStroke (activeStepId p) (laidOut p d) l
            = Some (if bool_decide (activeStepId p = Some (Types.id st))
                    then linkActive else linkDefault)) as Hstroke.
  { intros l st depId Hl. apply linkOf_Some in Hl as [_ Ht].
    apply find_Some in Ht as (t & Ht & Hid & _).
    unfold linkStroke, isActive. rewrite Ht. simpl. now rewrite Hid. }
  split; [exact Hglow|]. split; [|split].
  - intros l st depId Hst Hdep Hl. split; [apply elem_of_links; eauto|].
    rewrite (Hstroke l st depId Hl). split; intros H.
    + now rewrite bool_decide_eq_true_2.
    + now rewrite bool_decide_eq_false_2.
  - intros Hnone. split.
    + destruct (glowGroups _ _) as [|i g]; [reflexivity|].
      destruct (proj1 (Hglow i)) as (s & Hs & Ha); [left|]. exfalso.
      apply (Hnone s); [eapply list_elem_of_lookup_2, Hs | exact Ha].
    + intros l Hl. apply elem_of_links in Hl as (st & depId & Hst & _ & Hl).
      rewrite (Hstroke l st depId Hl).
      now rewrite bool_decide_eq_false_2 by auto.
  - intros Hnd.
    assert (NoDup (glowGroups (activeStepId p) (laidOut p d))) as Hnd'
      by apply NoDup_filter, NoDup_seq.
    destruct (glowGroups _ _) as [|i [|j g]]; simpl; [lia..|].
    exfalso. apply NoDup_cons in Hnd' as [Hij _].
    destruct (proj1 (Hglow i)) as (s & Hs & Ha); [left|].
    destruct (proj1 (Hglow j)) as (s' & Hs' & Ha'); [right; left|].
    assert (i = j) as Eij.
    { eapply NoDup_lookup; [exact Hnd| |].
      - unfold stepIds. rewrite list_lookup_fmap, Hs. reflexivity.
      - unfold stepIds. rewrite list_lookup_fmap, Hs'. simpl. congruence. }
    apply Hij. rewrite Eij. left.
Qed.

Lemma active_step_highlights_witness :
  exists c' sc,
    renderPass {| steps := Examples.pipeline; activeStepId := Some "B"%string;
                  savedPositions := None |} Examples.attached mount = Some c'
    /\ scene c' = Some sc
    /\ 1 ∈ glowGroups (Some "B"%string) (sceneNodes sc).
Proof.
  destruct (active_step_highlights
              {| steps := Examples.pipeline; activeStepId := Some "B"%string;
                 savedPositions := None |} Examples.attached mount eq_refl
              ltac:(discriminate)) as (c' & sc & Hrun & Hsc & Hglow & _).
  exists c', sc. split; [exact Hrun|]. split; [exact Hsc|].
  apply Hglow. exists Examples.stepB. split; reflexivity.
Defined.

End GraphFacts.

(** ** The variant with a fixed height *)
Section SimpleGraphFacts.
Import JsString JsNumber PipelineGraph.

Lemma simple_layerX_value (width : Z) (lay : nat) :
  SimpleGraph.layerX width lay
  = Some (120 + IZR (Z.of_nat lay) * ((IZR width - 240) / 2))%R.
Proof.
  unfold SimpleGraph.layerX, add, mul, sub, div, lift2, lit.
  destruct (Req_dec_T 2 0) as [E|_]; [lra | reflexivity].
Qed.

Lemma simple_layerY_value (len : nat) (idx : Z) :
  SimpleGraph.layerY len idx
  = Some (350 / (IZR (Z.of_nat len) + 1) * (IZR idx + 1))%R.
Proof.
  unfold SimpleGraph.layerY, SimpleGraph.height, add, mul, div, lift2, lit.
  destruct (Req_dec_T (IZR (Z.of_nat len) + 1) 0) as [E|_]; [|reflexivity].
  pose proof (IZR_of_nat_nonneg len). lra.
Qed.

Lemma simple_placeAll (ns0 : list GraphNode) (width : Z) :
  Forall (fun n => layer n <= 2) ns0 ->
  SimpleGraph.placeAll (layers ns0) width ns0
  = Some (imap (SimpleGraph.placed ns0 width) ns0).
Proof.
  intros H. unfold SimpleGraph.placeAll. apply mapM_Some_2.
  apply Forall2_same_length_lookup_2.
  - now rewrite !length_imap.
  - intros i [j n] m Hp Hm.
    apply list_lookup_imap_Some in Hp as [n' [Hn' E]]. injection E as -> ->.
    apply list_lookup_imap_Some in Hm as [n'' [Hn'' ->]].
    assert (n'' = n') as -> by congruence. simpl.
    unfold SimpleGraph.placeNode. rewrite layers_lookup; [reflexivity|].
    eapply Forall_lookup_1 in H; [exact H | exact Hn'].
Qed.

Lemma simple_nodeIds (sts : list Types.PipelineStep) (width : Z) :
  nodeIds (imap (SimpleGraph.placed (nodes sts) width) (nodes sts)) = stepIds sts.
Proof.
  rewrite <- nodeIds_nodes. apply list_eq. intros i.
  rewrite !nodeIds_lookup, list_lookup_imap.
  now destruct (nodes sts !! i).
Qed.

Lemma simple_renderPass_run (sts : list Types.PipelineStep) (d : Dom)
    (prev : option SimpleGraph.Drawing) :
  svgCurrent d = true -> sts <> [] ->
  exists paths,
    mapM (onDatum drawLink
            (imap (SimpleGraph.placed (nodes sts) (resolveWidth d)) (nodes sts)))
         (links sts (imap (SimpleGraph.placed (nodes sts) (resolveWidth d))
                          (nodes sts)))
    = Some paths
    /\ SimpleGraph.renderPass sts d prev
       = Some (Some {| SimpleGraph.drawnNodes :=
                         imap (SimpleGraph.placed (nodes sts) (resolveWidth d))
                              (nodes sts);
                       SimpleGraph.drawnLinks :=
                         links sts
                           (imap (SimpleGraph.placed (nodes sts) (resolveWidth d))
                                 (nodes sts));
                       SimpleGraph.drawnPaths := paths |}).
Proof.
  intros Hsvg Hne.
  destruct (mapM_onDatum drawLink
              (imap (SimpleGraph.placed (nodes sts) (resolveWidth d)) (nodes sts))
              (links sts (imap (SimpleGraph.placed (nodes sts) (resolveWidth d))
                               (nodes sts))))
    as (paths & Hpaths & _); [apply links_in_range|].
  exists paths. split; [exact Hpaths|].
  assert ((length sts =? 0) = false) as Hlen.
  { destruct sts; [congruence | reflexivity]. }
  unfold SimpleGraph.renderPass. rewrite Hsvg, Hlen. cbn [negb orb]. cbv zeta.
  rewrite simple_placeAll by apply nodes_layer_le_2.
  cbn [mbind option_bind]. rewrite Hpaths. reflexivity.
Qed.

(** X14: the variant with a fixed height completes its pass for every step
    list, derives one node per step and its links as the other variant does,
    and puts the node at slot [slot] of a column of [N] at
    [x = 120 + layer * ((width - 240) / 2)] and
    [y = (350 / (N + 1)) * (slot + 1)], strictly between 0 and 350.  The
    height does not grow with the step list: the slots of a column are
    [350 / (N + 1)] apart, at least a node diameter (56) for up to five
    nodes and less than one from six nodes on. *)
Theorem fixed_height_placement
    (sts : list Types.PipelineStep) (d : Dom)
    (prev : option SimpleGraph.Drawing) :
  svgCurrent d = true -> sts <> [] ->
  exists dr,
    SimpleGraph.renderPass sts d prev = Some (Some dr)
    /\ nodeIds (SimpleGraph.drawnNodes dr) = stepIds sts
    /\ SimpleGraph.drawnLinks dr = links sts (nodes sts)
    /\ forall i s,
         sts !! i = Some s ->
         exists n slot px py,
           SimpleGraph.drawnNodes dr !! i = Some n /\ step n = s
           /\ layer n = layerOf (Types.name s)
           /\ bucket (layer n) (nodes sts) !! slot = Some i
           /\ x n = Some px /\ y n = Some py
           /\ px = (120 + IZR (Z.of_nat (layer n))
                          * ((IZR (resolveWidth d) - 240) / 2))%R
           /\ py = (350 / (IZR (Z.of_nat (length (bucket (layer n) (nodes sts))))
                           + 1)
                    * (IZR (Z.of_nat slot) + 1))%R
           /\ (0 < py < 350)%R
           /\ (length (bucket (layer n) (nodes sts)) <= 5 ->
               (2 * IZR SimpleGraph.nodeRadius
                <= 350 / (IZR (Z.of_nat (length (bucket (layer n) (nodes sts))))
                          + 1))%R)
           /\ (6 <= length (bucket (layer n) (nodes sts)) ->
               (350 / (IZR (Z.of_nat (length (bucket (layer n) (nodes sts))))
                       + 1)
                < 2 * IZR SimpleGraph.nodeRadius)%R).
Proof.
  intros Hsvg Hne.
  destruct (simple_renderPass_run sts d prev Hsvg Hne) as (paths & _ & ->).
  eexists. split; [reflexivity|]. simpl.
  split; [apply simple_nodeIds|].
  split; [apply links_ids; now rewrite simple_nodeIds, nodeIds_nodes|].
  intros i s Hs.
  assert (nodes sts !! i
          = Some {| step := s; layer := layerOf (Types.name s);
                    x := None; y := None |}) as Hn.
  { now rewrite nodes_lookup, Hs. }
  destruct (bucket_slot (nodes sts) i _ Hn) as (slot & Hslot & Hidx & Hlt).
  simpl in Hslot, Hidx, Hlt.
  eexists _, slot, _, _. rewrite list_lookup_imap, Hn.
  unfold SimpleGraph.placed. cbn [fmap option_fmap option_map].
  split; [reflexivity|]. cbn [step layer x y].
  split; [reflexivity|]. split; [reflexivity|].
  split; [exact Hslot|]. split; [apply simple_layerX_value|].
  split; [rewrite Hidx; apply simple_layerY_value|].
  split; [reflexivity|]. split; [reflexivity|].
  set (N := length (bucket (layerOf (Types.name s)) (nodes sts))) in *.
  clearbody N.
  assert (0 <= IZR (Z.of_nat slot))%R as HS by apply IZR_of_nat_nonneg.
  assert (IZR (Z.of_nat slot) + 1 <= IZR (Z.of_nat N))%R as HN.
  { rewrite <- plus_IZR. apply IZR_le. lia. }
  assert (0 < 350 / (IZR (Z.of_nat N) + 1))%R as HD.
  { apply Rdiv_lt_0_compat; lra. }
  assert (350 / (IZR (Z.of_nat N) + 1) * (IZR (Z.of_nat N) + 1) = 350)%R
    as HE by (field; lra).
  unfold SimpleGraph.nodeRadius.
  split; [|split].
  - set (D := (350 / (IZR (Z.of_nat N) + 1))%R) in *. nra.
  - intros H5. assert (IZR (Z.of_nat N) <= 5)%R
      by (apply (IZR_le _ 5); lia).
    set (D := (350 / (IZR (Z.of_nat N) + 1))%R) in *. nra.
  - intros H6. assert (6 <= IZR (Z.of_nat N))%R
      by (apply (IZR_le 6); lia).
    set (D := (350 / (IZR (Z.of_nat N) + 1))%R) in *. nra.
Qed.

Lemma fixed_height_placement_witness :
  exists dr,
    SimpleGraph.renderPass Examples.pipeline Examples.attached None
    = Some (Some dr)
    /\ nodeIds (SimpleGraph.drawnNodes dr) = ["A"; "B"; "C"]%string.
Proof.
  destruct (fixed_height_placement Examples.pipeline Examples.attached None
              eq_refl ltac:(discriminate)) as (dr & Hrun & Hids & _).
  exists dr. split; [exact Hrun | exact Hids].
Defined.

(** X15: on the same steps and the same container the two variants draw the
    same graph: node [i] has the same step and the same layer in both, and
    the links are the same.  Without a saved layout the horizontal
    coordinates differ by [20 - 20 * layer]: the middle column is the same,
    the outer columns of the fixed-height variant are 20 further in. *)
Theorem variants_draw_the_same_graph
    (p : Props) (d : Dom) (c : Component)
    (prev : option SimpleGraph.Drawing) :
  svgCurrent d = true -> steps p <> [] ->
  exists c' sc dr,
    renderPass p d c = Some c' /\ scene c' = Some sc
    /\ SimpleGraph.renderPass (steps p) d prev = Some (Some dr)
    /\ step <$> SimpleGraph.drawnNodes dr = step <$> sceneNodes sc
    /\ layer <$> SimpleGraph.drawnNodes dr = layer <$> sceneNodes sc
    /\ SimpleGraph.drawnLinks dr = sceneLinks sc
    /\ (savedPositions p = None ->
        forall i n m,
          sceneNodes sc !! i = Some n ->
          SimpleGraph.drawnNodes dr !! i = Some m ->
          exists px qx,
            x n = Some px /\ x m = Some qx
            /\ (qx - px = 20 - 20 * IZR (Z.of_nat (layer n)))%R).
Proof.
  intros Hsvg Hne.
  destruct (renderPass_run p d c Hsvg Hne) as (paths & _ & ->).
  destruct (simple_renderPass_run (steps p) d prev Hsvg Hne)
    as (paths' & _ & ->).
  eexists _, _, _. split; [reflexivity|]. split; [reflexivity|].
  split; [reflexivity|]. simpl.
  assert (forall i s, steps p !! i = Some s ->
            exists n m,
              laidOut p d !! i = Some n
              /\ imap (SimpleGraph.placed (nodes (steps p)) (resolveWidth d))
                      (nodes (steps p)) !! i = Some m
              /\ step n = s /\ step m = s /\ layer m = layer n
              /\ x m = SimpleGraph.layerX (resolveWidth d) (layer n)
              /\ (savedPositions p = None ->
                  x n = layerX (resolveWidth d) (layer n))) as Hboth.
  { intros i s Hs.
    destruct (laidOut_lookup p d i s Hs)
      as (n0 & n & Hn0 & Hn & Hs0 & Hsn & Hl0 & Hl & E).
    exists n, (SimpleGraph.placed (nodes (steps p)) (resolveWidth d) i n0).
    rewrite list_lookup_imap, Hn0.
    split; [exact Hn|]. split; [reflexivity|]. split; [exact Hsn|].
    split; [exact Hs0|]. split; [simpl; congruence|].
    split; [simpl; now rewrite Hl0, Hl|].
    intros Hnone. rewrite Hnone in E. subst n. reflexivity. }
  assert (length (imap (SimpleGraph.placed (nodes (steps p)) (resolveWidth d))
                       (nodes (steps p))) = length (laidOut p d)) as Hlen.
  { rewrite length_imap, length_laidOut. unfold nodes. apply length_fmap. }
  split; [|split; [|split]].
  - apply list_eq. intros i. rewrite !list_lookup_fmap.
    destruct (steps p !! i) as [s|] eqn:Hs.
    + destruct (Hboth i s Hs) as (n & m & -> & -> & Hn & Hm & _).
      simpl. congruence.
    + apply lookup_ge_None in Hs. rewrite <- length_laidOut with (d := d) in Hs.
      rewrite (proj2 (lookup_ge_None (laidOut p d) i)) by exact Hs.
      rewrite (proj2 (lookup_ge_None _ i)) by (rewrite Hlen; exact Hs).
      reflexivity.
  - apply list_eq. intros i. rewrite !list_lookup_fmap.
    destruct (steps p !! i) as [s|] eqn:Hs.
    + destruct (Hboth i s Hs) as (n & m & -> & -> & _ & _ & Hl & _).
      simpl. congruence.
    + apply lookup_ge_None in Hs. rewrite <- length_laidOut with (d := d) in Hs.
      rewrite (proj2 (lookup_ge_None (laidOut p d) i)) by exact Hs.
      rewrite (proj2 (lookup_ge_None _ i)) by (rewrite Hlen; exact Hs).
      reflexivity.
  - apply links_ids. now rewrite simple_nodeIds, nodeIds_laidOut.
  - intros Hnone i n m Hn Hm.
    destruct (steps p !! i) as [s|] eqn:Hs.
    + destruct (Hboth i s Hs) as (n' & m' & Hn' & Hm' & _ & _ & _ & Hx & Hx').
      assert (n' = n) as -> by congruence.
      assert (m' = m) as -> by congruence.
      rewrite Hx, (Hx' Hnone), layerX_value, simple_layerX_value.
      eexists _, _. split; [reflexivity|]. split; [reflexivity|]. lra.
    + apply lookup_ge_None in Hs. apply lookup_lt_Some in Hn.
      rewrite length_laidOut in Hn. lia.
Qed.

Lemma variants_draw_the_same_graph_witness :
  exists c' sc dr,
    renderPass (Examples.props None) Examples.attached mount = Some c'
    /\ scene c' = Some sc
    /\ SimpleGraph.renderPass Examples.pipeline Examples.attached None
       = Some (Some dr)
    /\ SimpleGraph.drawnLinks dr = sceneLinks sc.
Proof.
  destruct (variants_draw_the_same_graph (Examples.props None)
              Examples.attached mount None eq_refl ltac:(discriminate))
    as (c' & sc & dr & Hrun & Hsc & Hrun' & _ & _ & Hl & _).
  exists c', sc, dr. repeat split; assumption.
Defined.

End SimpleGraphFacts.

(** ** App.tsx *)
Section AppFacts.
Import JsString JsNumber PipelineGraph.
Local Open Scope string_scope.

Lemma orElse_nonempty (a b : string) :
  b <> EmptyString -> orElse a b <> EmptyString.
Proof. intros Hb. destruct a; [exact Hb | discriminate]. Qed.

(** X16: the layouts are stored per pipeline, under the pipeline's identifier,
    or its name when it has no identifier or an empty one, or ["default"]
    when the name is empty too; the key is never empty.  After a save from
    the graph of a pipeline, the graph of that pipeline (and of any pipeline
    with the same key) is handed exactly the saved cache; the props of the
    graph of a pipeline with another key are unchanged.  Before any save no
    graph is handed a snapshot. *)
Theorem layout_store_keyed_by_pipeline
    (r r' : GeneratedPipeline.t) (c : Component) (dag : App.DagPositions)
    (active : option string) :
  App.positionsKey r <> EmptyString
  /\ (forall i, GeneratedPipeline.id r = Some i -> i <> EmptyString ->
                App.positionsKey r = i)
  /\ (GeneratedPipeline.id r = None
      \/ GeneratedPipeline.id r = Some EmptyString ->
      (GeneratedPipeline.name r <> EmptyString ->
       App.positionsKey r = GeneratedPipeline.name r)
      /\ (GeneratedPipeline.name r = EmptyString ->
          App.positionsKey r = "default"))
  /\ savedPositions (App.graphProps (App.saveLayout r c dag) r active)
     = Some (onSave c)
  /\ (App.positionsKey r' = App.positionsKey r ->
      savedPositions (App.graphProps (App.saveLayout r c dag) r' active)
      = Some (onSave c))
  /\ (App.positionsKey r' <> App.positionsKey r ->
      App.graphProps (App.saveLayout r c dag) r' active
      = App.graphProps dag r' active)
  /\ savedPositions (App.graphProps App.noPositions r active) = None
  /\ steps (App.graphProps dag r active) = GeneratedPipeline.steps r.
Proof.
  unfold App.graphProps, App.saveLayout, App.onSavePositions.
  cbn [savedPositions steps].
  split; [apply orElse_nonempty; discriminate|].
  split.
  { intros i Hi Hne. unfold App.positionsKey. rewrite Hi. simpl.
    destruct i; [contradiction | reflexivity]. }
  split.
  { unfold App.positionsKey. intros [-> | ->]; simpl; split.
    - intros H. destruct (GeneratedPipeline.name r); [contradiction|reflexivity].
    - intros ->. reflexivity.
    - intros H. destruct (GeneratedPipeline.name r); [contradiction|reflexivity].
    - intros ->. reflexivity. }
  split; [apply lookup_insert_eq|].
  split; [intros ->; apply lookup_insert_eq|].
  split; [intros Hne; f_equal; apply lookup_insert_ne; congruence|].
  split; [apply lookup_empty | reflexivity].
Qed.

Lemma isSafeChar_lowerChar (c : ascii) :
  App.isSafeChar c = true \/ c = "_"%char -> lowerChar c = c.
Proof.
  intros [H | ->]; [|reflexivity]. revert H.
  destruct c as [[] [] [] [] [] [] [] []]; vm_compute; congruence.
Qed.

Lemma toLowerCase_safe (s : string) :
  Forall (fun c => App.isSafeChar c = true \/ c = "_"%char)
         (list_ascii_of_string s) ->
  toLowerCase s = s.
Proof.
  induction s as [|c s IH]; simpl; intros H; [reflexivity|].
  apply Forall_cons in H as [Hc H].
  now rewrite (isSafeChar_lowerChar c Hc), (IH H).
Qed.

Lemma replaceUnsafe_alphabet (b : bool) (s : string) :
  Forall (fun c => App.isSafeChar c = true \/ c = "_"%char)
         (list_ascii_of_string (App.replaceUnsafe b s)).
Proof.
  revert b. induction s as [|c s IH]; intros b; simpl; [constructor|].
  destruct (App.isSafeChar c) eqn:Hc; [|destruct b]; simpl; auto.
Qed.

Lemma replaceUnsafe_length (b : bool) (s : string) :
  String.length (App.replaceUnsafe b s) <= String.length s.
Proof.
  revert b. induction s as [|c s IH]; intros b; simpl; [lia|].
  destruct (App.isSafeChar c); [|destruct b]; simpl;
    try (specialize (IH false); lia); specialize (IH true); lia.
Qed.

(** Inside a run being replaced, the output does not go on with an
    underscore. *)
Lemma replaceUnsafe_head (s : string) :
  String.get 0 (App.replaceUnsafe true s) <> Some "_"%char.
Proof.
  induction s as [|c s IH]; simpl; [discriminate|].
  destruct (App.isSafeChar c) eqn:Hc; [|exact IH].
  simpl. intros H. injection H as ->. vm_compute in Hc. discriminate.
Qed.

Lemma replaceUnsafe_no_double (b : bool) (s : string) (i : nat) :
  String.get i (App.replaceUnsafe b s) = Some "_"%char ->
  String.get (S i) (App.replaceUnsafe b s) <> Some "_"%char.
Proof.
  revert b i. induction s as [|c s IH]; intros b i; simpl; [discriminate|].
  destruct (App.isSafeChar c) eqn:Hc; [|destruct b].
  - destruct i as [|i]; simpl.
    + intros H. injection H as ->. vm_compute in Hc. discriminate.
    + apply IH.
  - apply IH.
  - destruct i as [|i]; simpl.
    + intros _. apply replaceUnsafe_head.
    + apply IH.
Qed.

(** A string over the output alphabet without two underscores in a row is
    left as it is. *)
Lemma replaceUnsafe_fixed (b : bool) (t : string) :
  Forall (fun c => App.isSafeChar c = true \/ c = "_"%char)
         (list_ascii_of_string t) ->
  (forall i, String.get i t = Some "_"%char ->
             String.get (S i) t <> Some "_"%char) ->
  (b = true -> String.get 0 t <> Some "_"%char) ->
  App.replaceUnsafe b t = t.
Proof.
  revert b. induction t as [|c t IH]; intros b Halpha Hdouble Hhead;
    [reflexivity|].
  simpl in Halpha. apply Forall_cons in Halpha as [Hc Halpha]. simpl.
  assert (forall i, String.get i t = Some "_"%char ->
                    String.get (S i) t <> Some "_"%char) as Hdouble'
    by (intros i; apply (Hdouble (S i))).
  destruct Hc as [Hc | ->].
  - rewrite Hc. f_equal. apply IH; [assumption..|discriminate].
  - change (App.isSafeChar "_") with false. cbv iota.
    destruct b; [exfalso; now apply Hhead|].
    f_equal. apply IH; [assumption..|]. intros _. now apply (Hdouble 0).
Qed.

(** X17: the name used for the files of a downloaded project has only the
    characters a-z, 0-9 and the underscore, never two underscores in a row,
    and is not longer than the lower-cased pipeline name; so it has no slash,
    backslash or dot, and the path of the DAG file stays in the [dags]
    folder.
    Sanitising is idempotent, and a name of lower-case letters and digits is
    kept as it is. *)
Theorem safe_name_alphabet (nm : string) :
  Forall (fun c => App.isSafeChar c = true \/ c = "_"%char)
         (list_ascii_of_string (App.safeName nm))
  /\ (forall i,
        String.get i (App.safeName nm) = Some "_"%char ->
        String.get (S i) (App.safeName nm) <> Some "_"%char)
  /\ String.length (App.safeName nm) <= String.length (toLowerCase nm)
  /\ (forall c, c ∈ list_ascii_of_string (App.safeName nm) ->
                c <> "/"%char /\ c <> "\"%char /\ c <> "."%char)
  /\ App.safeName (App.safeName nm) = App.safeName nm
  /\ (Forall (fun c => App.isSafeChar c = true) (list_ascii_of_string nm) ->
      App.safeName nm = nm)
  /\ App.safeName "Finance API / Daily ETL" = "finance_api_daily_etl"
  /\ (forall r : GeneratedPipeline.t,
        (GeneratedPipeline.name r = nm ->
         App.dagFilePath r = "dags/" +:+ App.safeName nm +:+ ".py"
         /\ (nm <> EmptyString ->
             App.downloadName r = App.safeName nm +:+ "_project.zip"))
        /\ (GeneratedPipeline.name r = EmptyString ->
            App.dagFilePath r = "dags/.py"
            /\ App.downloadName r = "pipeline_project.zip")).
Proof.
  pose proof (replaceUnsafe_alphabet false (toLowerCase nm)) as Halpha.
  pose proof (replaceUnsafe_no_double false (toLowerCase nm)) as Hdouble.
  fold (App.safeName nm) in Halpha, Hdouble.
  split; [exact Halpha|]. split; [exact Hdouble|].
  split; [|split; [|split; [|split; [|split]]]].
  - unfold App.safeName. apply replaceUnsafe_length.
  - intros c Hc.
    destruct (proj1 (Forall_forall _ _) Halpha c Hc) as [H | ->].
    + repeat split; intros ->; discriminate.
    + repeat split; discriminate.
  - unfold App.safeName at 1. rewrite (toLowerCase_safe _ Halpha).
    apply replaceUnsafe_fixed; [assumption..|discriminate].
  - intros Hsafe.
    assert (Forall (fun c => App.isSafeChar c = true \/ c = "_"%char)
                   (list_ascii_of_string nm)) as Hsafe'.
    { eapply Forall_impl; [exact Hsafe|]. auto. }
    unfold App.safeName. rewrite (toLowerCase_safe _ Hsafe').
    apply replaceUnsafe_fixed; [assumption| |discriminate].
    intros i Hi. exfalso.
    assert ("_"%char ∈ list_ascii_of_string nm) as Hin.
    { clear -Hi. revert i Hi. induction nm as [|c s IH]; intros i Hi;
        [discriminate|].
      simpl. destruct i as [|i]; simpl in Hi.
      - injection Hi as ->. left.
      - right. eauto. }
    pose proof (proj1 (Forall_forall _ _) Hsafe _ Hin). discriminate.
  - reflexivity.
  - intros r. unfold App.dagFilePath, App.downloadName,
      App.buildProjectZipName. split.
    + intros ->. split; [reflexivity|]. intros Hne.
      destruct nm; [contradiction | reflexivity].
    + intros ->. split; reflexivity.
Qed.

(** Once the interval is cleared no period changes the state. *)
Lemma ticks_cleared (r : GeneratedPipeline.t) (m : nat) (s : App.Simulation) :
  App.intervalCleared s = true -> App.ticks r m s = Some s.
Proof. intros H. destruct m; simpl; [reflexivity | now rewrite H]. Qed.

Lemma ticks_add (r : GeneratedPipeline.t) (a b : nat) (s : App.Simulation) :
  App.ticks r (a + b) s = App.ticks r a s ≫= App.ticks r b.
Proof.
  revert s. induction a as [|a IH]; intros s; simpl; [reflexivity|].
  destruct (App.intervalCleared s) eqn:Hc.
  - simpl. symmetry. now apply ticks_cleared.
  - destruct (App.tick r s) as [s'|]; simpl; [apply IH | reflexivity].
Qed.

Lemma ticks_run (r : GeneratedPipeline.t) (k : nat) (s : App.Simulation) :
  App.intervalCleared s = false ->
  App.stepIdx s + k <= length (GeneratedPipeline.steps r) ->
  exists s',
    App.ticks r k s = Some s'
    /\ App.stepIdx s' = App.stepIdx s + k
    /\ App.intervalCleared s' = false
    /\ App.outputPreviewShown s' = App.outputPreviewShown s
    /\ App.simulationLogs s'
       = (App.simulationLogs s
          ++ ((fun st => "[RUNNING] Task Execution: " +:+ Types.name st)
                <$> take k (drop (App.stepIdx s) (GeneratedPipeline.steps r))))%list
    /\ forall st,
         0 < k ->
         GeneratedPipeline.steps r !! (App.stepIdx s + k - 1) = Some st ->
         App.activeStepId s' = Some (Types.id st)
         /\ App.simulationProgress s'
            = ((lit (Z.of_nat (App.stepIdx s + k - 1)) + lit 1)
               / lit (Z.of_nat (length (GeneratedPipeline.steps r)))
               * lit 100)%num.
Proof.
  revert s. induction k as [|k IH]; intros s Hc Hle.
  - exists s. simpl. rewrite Nat.add_0_r, app_nil_r.
    repeat split; try assumption; try reflexivity; lia.
  - simpl. rewrite Hc. unfold App.tick.
    destruct (Nat.ltb_spec (App.stepIdx s)
                (length (GeneratedPipeline.steps r))) as [Hlt|Hge]; [|lia].
    destruct (lookup_lt_is_Some_2 _ _ Hlt) as [st Hst]. rewrite Hst.
    cbn [mbind option_bind].
    match goal with |- context [App.ticks r k ?s1] => set (s1' := s1) end.
    destruct (IH s1') as (s' & Hrun & Hidx & Hcl & Hprev & Hlogs & Hact).
    { reflexivity. }
    { subst s1'. simpl. lia. }
    exists s'. split; [exact Hrun|]. subst s1'. simpl in *.
    split; [lia|]. split; [exact Hcl|]. split; [exact Hprev|]. split.
    + rewrite Hlogs, <- app_assoc. f_equal.
      rewrite (drop_S _ _ _ Hst). simpl.
      now replace (App.stepIdx s + 1) with (S (App.stepIdx s)) by lia.
    + intros st' _ Hst'. destruct k as [|k].
      * simpl in Hrun. injection Hrun as <-. simpl.
        replace (App.stepIdx s + 1 - 1) with (App.stepIdx s) in * by lia.
        assert (st' = st) as -> by congruence. split; reflexivity.
      * replace (App.stepIdx s + S (S k) - 1)
          with (App.stepIdx s + 1 + S k - 1) in * by lia.
        apply Hact; [lia | exact Hst'].
Qed.

(** X18: the simulated run shows the steps as running in the order of the step
    list, one per period, whatever their dependencies: after [k] periods the
    active step is step [k] of the list, the log has the two opening lines
    and one line for each of the first [k] steps, and the progress is
    [k / n * 100], which is 100 at the last step.  The period after the last
    step ends the run: no step is active, the preview is shown, two closing
    lines are logged, and later periods change nothing. *)
Theorem simulation_visits_steps_in_list_order
    (r : GeneratedPipeline.t) (active0 : option string) (preview0 : bool)
    (k : nat) :
  k <= length (GeneratedPipeline.steps r) ->
  exists s,
    App.ticks r k (App.runSimulation active0 preview0) = Some s
    /\ App.stepIdx s = k /\ App.intervalCleared s = false
    /\ App.simulationLogs s
       = (["[SYSTEM] Initializing Runtime...";
           "[INFO] Validating logic paths..."]
          ++ ((fun st => "[RUNNING] Task Execution: " +:+ Types.name st)
                <$> take k (GeneratedPipeline.steps r)))%list
    /\ (k = 0 -> App.activeStepId s = active0)
    /\ (forall st,
          GeneratedPipeline.steps r !! (k - 1) = Some st -> 0 < k ->
          App.activeStepId s = Some (Types.id st)
          /\ App.simulationProgress s
             = Some (IZR (Z.of_nat k)
                     / IZR (Z.of_nat (length (GeneratedPipeline.steps r)))
                     * 100)%R
          /\ (k = length (GeneratedPipeline.steps r) ->
              App.simulationProgress s = Some 100%R))
    /\ (k = length (GeneratedPipeline.steps r) ->
        forall m,
          exists s',
            App.ticks r (k + (1 + m)) (App.runSimulation active0 preview0)
            = Some s'
            /\ App.activeStepId s' = None
            /\ App.intervalCleared s' = true
            /\ App.outputPreviewShown s' = true
            /\ App.simulationProgress s' = App.simulationProgress s
            /\ App.simulationLogs s'
               = (App.simulationLogs s
                  ++ ["[SUCCESS] Architecture Verified.";
                      "[INFO] Ready for deployment."])%list).
Proof.
  intros Hk.
  destruct (ticks_run r k (App.runSimulation active0 preview0) eq_refl Hk)
    as (s & Hrun & Hidx & Hcl & _ & Hlogs & Hact).
  simpl in Hidx, Hlogs, Hact. rewrite drop_0 in Hlogs.
  exists s. split; [exact Hrun|]. split; [exact Hidx|]. split; [exact Hcl|].
  split; [exact Hlogs|]. split; [|split].
  - intros ->. simpl in Hrun. injection Hrun as <-. reflexivity.
  - intros st Hst Hpos. destruct (Hact st Hpos Hst) as [Ha Hp].
    split; [exact Ha|].
    assert (0 < IZR (Z.of_nat (length (GeneratedPipeline.steps r))))%R as Hn.
    { apply (IZR_lt 0). lia. }
    assert (App.simulationProgress s
            = Some (IZR (Z.of_nat k)
                    / IZR (Z.of_nat (length (GeneratedPipeline.steps r)))
                    * 100)%R) as Hp'.
    { rewrite Hp. unfold add, div, mul, lift2, lit.
      destruct (Req_dec_T _ 0) as [E|_]; [lra|].
      do 3 f_equal. rewrite <- plus_IZR. f_equal. lia. }
    split; [exact Hp'|]. intros E. rewrite Hp', <- E. f_equal. field.
    rewrite E. lra.
  - intros E m. rewrite ticks_add, Hrun. cbn [mbind option_bind].
    simpl. rewrite Hcl. unfold App.tick.
    destruct (Nat.ltb_spec (App.stepIdx s)
                (length (GeneratedPipeline.steps r))) as [Hlt|_]; [lia|].
    cbn [mbind option_bind]. rewrite ticks_cleared by reflexivity.
    eexists. split; [reflexivity|]. repeat split.
Qed.

Lemma simulation_visits_steps_in_list_order_witness :
  exists s,
    App.ticks Examples.result 2 (App.runSimulation None false) = Some s
    /\ App.activeStepId s = Some "B".
Proof.
  destruct (simulation_visits_steps_in_list_order Examples.result None false 2)
    as (s & Hrun & _ & _ & _ & _ & Hact & _).
  { simpl. lia. }
  exists s. split; [exact Hrun|].
  exact (proj1 (Hact Examples.stepB eq_refl ltac:(lia))).
Defined.



End AppFacts.

(** ** What a drag frame and a zoom gesture leave alone *)
Section FrameFacts.
Import JsNumber PipelineGraph.

(** X20: a drag frame on node [i] changes nothing but that node: the stored
    height, the view transform, the links, the translation of every other
    group and the path of every link that neither starts nor ends at node [i]
    are as before, and the step and the layer of node [i] are kept.  A zoom
    gesture changes the view transform and nothing else, and it always
    completes on a drawn graph. *)
Theorem frames_change_only_their_target
    (c : Component) (sc : Scene) (i : nat) (d : GraphNode) (ex ey : R)
    (t : ZoomTransform) :
  Reachable c -> scene c = Some sc -> sceneNodes sc !! i = Some d ->
  (exists c' sc',
     onDrag i ex ey c = Some c' /\ scene c' = Some sc'
     /\ svgHeight c' = svgHeight c
     /\ viewTransform sc' = viewTransform sc
     /\ sceneLinks sc' = sceneLinks sc
     /\ (exists d', sceneNodes sc' !! i = Some d'
                    /\ step d' = step d /\ layer d' = layer d)
     /\ (forall j, j <> i -> nodeTransforms sc' !! j = nodeTransforms sc !! j)
     /\ (forall j l,
           sceneLinks sc !! j = Some l -> source l <> i -> target l <> i ->
           linkPaths sc' !! j = linkPaths sc !! j))
  /\ (exists c' sc',
        zoomOn t c = Some c' /\ scene c' = Some sc'
        /\ svgHeight c' = svgHeight c /\ positionsRef c' = positionsRef c
        /\ sceneNodes sc' = sceneNodes sc /\ sceneLinks sc' = sceneLinks sc
        /\ linkPaths sc' = linkPaths sc
        /\ nodeTransforms sc' = nodeTransforms sc
        /\ tx (viewTransform sc') = tx t /\ ty (viewTransform sc') = ty t
        /\ k (viewTransform sc') = constrainScale scaleExtent (k t)).
Proof.
  intros Hreach Hsc Hd. split.
  - pose proof (Reachable_sceneOk c Hreach sc Hsc) as Hok.
    destruct (Reachable_sceneCoherent c Hreach sc Hsc) as [_ Hold].
    apply mapM_onDatum_lookup in Hold as [_ Hold].
    destruct (onDrag_run c sc i d ex ey Hsc Hok Hd) as (paths & Hp & ->).
    apply mapM_onDatum_lookup in Hp as [_ Hnew].
    pose proof (lookup_lt_Some _ _ _ Hd) as Hi.
    eexists _, _. split; [reflexivity|]. split; [reflexivity|]. simpl.
    split; [reflexivity|]. split; [reflexivity|]. split; [reflexivity|].
    split; [|split].
    + eexists. split; [now apply list_lookup_insert_eq|]. split; reflexivity.
    + intros j Hj. now apply list_lookup_insert_ne.
    + intros j l Hl Hs Ht.
      destruct (Hold j l Hl) as (s & t' & Hs1 & Ht1 & ->).
      destruct (Hnew j l Hl) as (s2 & t2 & Hs2 & Ht2 & ->).
      rewrite list_lookup_insert_ne in Hs2 by congruence.
      rewrite list_lookup_insert_ne in Ht2 by congruence.
      now replace s2 with s by congruence; replace t2 with t' by congruence.
  - unfold zoomOn. rewrite Hsc. eexists _, _.
    split; [reflexivity|]. repeat split.
Qed.

Lemma frames_change_only_their_target_witness :
  exists c c' sc sc',
    renderPass (Examples.props None) Examples.attached mount = Some c
    /\ scene c = Some sc
    /\ onDrag 0 5 6 c = Some c' /\ scene c' = Some sc'
    /\ sceneLinks sc' = sceneLinks sc.
Proof.
  destruct (sample_pass None) as (c & sc & Hrun & Hreach & Hsc & Hns).
  destruct (laidOut_lookup (Examples.props None) Examples.attached 0
              Examples.stepA eq_refl) as (n0 & n & _ & Hn & _).
  rewrite <- Hns in Hn.
  destruct (frames_change_only_their_target c sc 0 n 5 6 zoomIdentity
              Hreach Hsc Hn)
    as ((c' & sc' & Hdrag & Hsc' & _ & _ & Hl & _) & _).
  exists c, c', sc, sc'. repeat split; assumption.
Defined.

End FrameFacts.
